(** * The voting client of the 10kb club: [assets/10kb.js]

    A shallow embedding of the browser script that hydrates the vote
    controls of a page ([populate_votes]), obtains the anonymous voter
    identity ([get_id]) and casts votes ([tryvote]).

    The script works on three pieces of browser state: the document (the
    elements it looks up by id, whose class, content and click listeners it
    changes), [localStorage], and what it makes observable (requests sent
    with [fetch], [alert] boxes, [console.log] lines).  Each [async]
    function is embedded as a computation over that state which is given
    the reply of every request it may send; it runs from call to
    completion, i.e. the interleaving of two calls that are in flight at the
    same time is not modelled. *)

From Stdlib Require Import Ascii.
From stdpp Require Import base strings list gmap pretty.

Open Scope Z_scope.

(** ** Strings as the script uses them *)

(** [s.split(sep)] for a separator of one character. *)
Fixpoint split (sep : ascii) (s : string) : list string :=
  match s with
  | EmptyString => [EmptyString]
  | String c s' =>
      if Ascii.eqb c sep then EmptyString :: split sep s'
      else match split sep s' with
           | part :: parts => String c part :: parts
           | [] => [String c EmptyString]
           end
  end.

(** [s.match(/pat/)] is truthy for a literal pattern exactly when [pat]
    occurs somewhere in [s]. *)
Fixpoint includes (pat s : string) : bool :=
  String.prefix pat s ||
  match s with
  | EmptyString => false
  | String _ s' => includes pat s'
  end.

(** [elem.id.match(/vote\-/)] *)
Definition vote_capable (elem_id : string) : bool := includes "vote-" elem_id.

(** [elem.id.split('-')[1]].  Index 1 exists whenever the id contains a
    hyphen (lemma [site_id_of_defined]), which [vote_capable] ensures. *)
Definition site_id_of (elem_id : string) : string :=
  default EmptyString (split "-"%char elem_id !! 1%nat).

(** The JavaScript values that flow through the script besides numbers:
    a string, [null] (what [localStorage.getItem] and [get_id] give when
    there is nothing), [undefined] (a field the reply does not have). *)
Inductive value : Type :=
  | Undefined
  | Null
  | Str (s : string).

(** String conversion, as in a template literal or [URLSearchParams.append]. *)
Definition to_string (v : value) : string :=
  match v with
  | Undefined => "undefined"
  | Null => "null"
  | Str s => s
  end.

Definition of_field (f : option string) : value :=
  match f with
  | Some s => Str s
  | None => Undefined
  end.

(** ** Replies of the server *)

(** A parsed reply body [{code, status, ...payload}]: a JSON object, as
    every endpoint answers.  Each field may be missing; a field that is
    present has the type the endpoints give it.  A body that parses to a
    number, a string, a boolean or an array has none of the four fields and
    is the object without fields here; the body [null], on which a property
    access throws, is a case of its own in [reply]. *)
Record json : Type := Json {
  code : option Z;
  status : option string;
  voter_id : option string;
  site_ids : option (list string)
}.

(** What [await fetch(...)] followed by [await res.json()] comes to: the
    request is rejected (network failure), the body does not parse, the
    body is an object, or the body is [null].  The two failures throw
    [error] inside the [try]; [null] is returned like any other body. *)
Inductive reply : Type :=
  | Rejected (error : string)
  | Unparsable (error : string)
  | Parsed (j : json)
  | NullBody.

(** [json['code'] == 200] *)
Definition code_is_200 (j : json) : bool := bool_decide (code j = Some 200).

(** ** The page *)

(** [vote_closure(id, vote)]: the function that, once called, calls
    [tryvote(id, vote)]. *)
Record closure : Type := Closure {
  closure_id : string;
  closure_vote : Z
}.

Definition vote_closure (id : string) (vote : Z) : closure :=
  {| closure_id := id; closure_vote := vote |}.

(** The click listeners the script registers: [() => closure()] calls the
    closure, [(e) => closure] evaluates to it and calls nothing. *)
Inductive listener : Type :=
  | Invoke (c : closure)
  | Yield (c : closure).

Record element : Type := Element {
  tagName : string;
  eid : string;
  className : string;
  innerHTML : string;
  listeners : list listener
}.

(** What the script makes observable, in the order it happens. *)
Inductive event : Type :=
  | Fetch (url : string) (body : list (string * string))
  | Alert (msg : string)
  | Log (msg : string).

(** The page, the local storage of the origin and the trace of events so
    far.  [document] lists, in document order, the elements that do not lie
    inside a vote control: what a control holds, elements included, is its
    [innerHTML], which hydration replaces.  Pages on which a vote control
    holds an element that the script could find (a [div], or an element
    with an id) are not described. *)
Record state : Type := State {
  document : list element;
  localStorage : gmap string string;
  trace : list event
}.

#[global] Instance closure_eq_dec : EqDecision closure.
Proof. solve_decision. Defined.
#[global] Instance listener_eq_dec : EqDecision listener.
Proof. solve_decision. Defined.
#[global] Instance element_eq_dec : EqDecision element.
Proof. solve_decision. Defined.
#[global] Instance event_eq_dec : EqDecision event.
Proof. solve_decision. Defined.
#[global] Instance value_eq_dec : EqDecision value.
Proof. solve_decision. Defined.

(** ** Computations: state passing with exceptions *)

Inductive completion (A : Type) : Type :=
  | Normal (a : A)
  | Throw (error : string).
Arguments Normal {A} a.
Arguments Throw {A} error.

Definition js (A : Type) : Type := state → completion A * state.

#[global] Instance js_ret : MRet js := λ A a st, (Normal a, st).

#[global] Instance js_bind : MBind js := λ A B f m st,
  match m st with
  | (Normal a, st') => f a st'
  | (Throw error, st') => (Throw error, st')
  end.

Definition throw {A : Type} (error : string) : js A := λ st, (Throw error, st).

(** [try { m } catch (error) { handler }] *)
Definition try_catch {A : Type} (m : js A) (handler : string → js A) : js A :=
  λ st,
    match m st with
    | (Throw error, st') => handler error st'
    | done => done
    end.

(** [for (x of xs) { body }] *)
Fixpoint for_of {A : Type} (xs : list A) (body : A → js ()) : js () :=
  match xs with
  | [] => mret ()
  | x :: xs' => body x;; for_of xs' body
  end.

(** The same loop around a local variable that the body updates. *)
Fixpoint for_of_with {A B : Type} (xs : list A) (acc : B)
    (body : B → A → js B) : js B :=
  match xs with
  | [] => mret acc
  | x :: xs' => acc' ← body acc x; for_of_with xs' acc' body
  end.

(** The error a property access on [null] or [undefined] throws, and the
    one iterating over [undefined] throws. *)
Definition type_error : string := "TypeError".

Definition with_document (doc : list element) (st : state) : state :=
  {| document := doc; localStorage := localStorage st; trace := trace st |}.

Definition with_localStorage (ls : gmap string string) (st : state) : state :=
  {| document := document st; localStorage := ls; trace := trace st |}.

(** The state after the events [evs] have happened. *)
Definition after (evs : list event) (st : state) : state :=
  {| document := document st; localStorage := localStorage st;
     trace := trace st ++ evs |}.

Definition emit (e : event) : js () := λ st, (Normal (), after [e] st).

Definition console_log (msg : string) : js () := emit (Log msg).
Definition alert (msg : string) : js () := emit (Alert msg).

Definition update_status (msg : string) : js () := alert msg.

(** [await fetch(url, {method: 'POST', body}); await res.json()]: the
    parsed body, [None] when it is [null]. *)
Definition fetch_json (url : string) (body : list (string * string))
    (r : reply) : js (option json) :=
  emit (Fetch url body);;
  match r with
  | Rejected error => throw error
  | Unparsable error => throw error
  | Parsed j => mret (Some j)
  | NullBody => mret None
  end.

Definition getItem (key : string) : js value := λ st,
  (Normal match localStorage st !! key with
          | Some s => Str s
          | None => Null
          end, st).

Definition setItem (key : string) (v : value) : js () := λ st,
  (Normal (), with_localStorage (<[key := to_string v]> (localStorage st)) st).

(** [v.length] *)
Definition length_of (v : value) : js nat :=
  match v with
  | Str s => mret (String.length s)
  | Null | Undefined => throw type_error
  end.

(** [document.querySelectorAll(tag)] *)
Definition querySelectorAll (tag : string) : js (list element) := λ st,
  (Normal (filter (λ e, tagName e = tag) (document st)), st).

(** [document.getElementById(id)]: the first element with that id, as its
    position in the document, or [null]. *)
Definition find_element (id : string) (doc : list element) : option nat :=
  fst <$> list_find (λ e, eid e = id) doc.

Arguments find_element : simpl never.

Definition getElementById (id : string) : js (option nat) := λ st,
  (Normal (find_element id (document st)), st).

(** An assignment to a property of [elem], which throws on [null]. *)
Definition update_element (elem : option nat) (f : element → element) :
    js () :=
  match elem with
  | None => throw type_error
  | Some i => λ st, (Normal (), with_document (alter f i (document st)) st)
  end.

Definition with_className (c : string) (e : element) : element :=
  {| tagName := tagName e; eid := eid e; className := c;
     innerHTML := innerHTML e; listeners := listeners e |}.

Definition with_innerHTML (h : string) (e : element) : element :=
  {| tagName := tagName e; eid := eid e; className := className e;
     innerHTML := h; listeners := listeners e |}.

Definition with_listener (l : listener) (e : element) : element :=
  {| tagName := tagName e; eid := eid e; className := className e;
     innerHTML := innerHTML e; listeners := listeners e ++ [l] |}.

Definition set_className (elem : option nat) (c : string) : js () :=
  update_element elem (with_className c).

(** [elem.innerHTML = h] replaces all that the element holds.  The elements
    it held are part of the content replaced and are not entries of
    [document] (see [state]), so that no entry of the list goes away. *)
Definition set_innerHTML (elem : option nat) (h : string) : js () :=
  update_element elem (with_innerHTML h).

(** [elem.addEventListener('click', l)]: every listener the script passes
    is a new function, so it is always added, after the earlier ones. *)
Definition addEventListener (elem : option nat) (l : listener) : js () :=
  update_element elem (with_listener l).

(** ** The three functions of the script *)

Definition voter_key : string := "10kb_voter_id".

(** Truthiness of a value: [null], [undefined] and the empty string are
    falsy. *)
Definition truthy (v : value) : bool :=
  match v with
  | Str (String _ _) => true
  | _ => false
  end.

(** In [get_id] and [tryvote] the variable [json] is read after the [try]:
    [attempt] is [None] when the [catch] ran, [Some None] when the body is
    [null], and [Some (Some j)] for an object [j].  In [get_id] the [catch]
    returns [null]; in [tryvote] it falls through, and [json['code']] then
    throws on [undefined] as it does on [null]. *)
Definition get_id (force : bool) (r : reply) : js value :=
  let url := "/id/" in
  id ← getItem voter_key;
  cached ← (if truthy id
            then len ← length_of id;
                 mret (bool_decide (0 < len)%nat && negb force)
            else mret false);
  if cached : bool then mret id
  else
    attempt ← try_catch (json ← fetch_json url [] r; mret (Some json))
                (λ error,
                   update_status ("Error getting poster id: " +:+ error);;
                   mret None);
    match attempt with
    | None => mret Null
    | Some None => throw type_error
    | Some (Some j) =>
        if code_is_200 j then
          setItem voter_key (of_field (voter_id j));;
          mret (of_field (voter_id j))
        else
          update_status ("Unable to generate id: "
                         +:+ to_string (of_field (status j)));;
          mret Null
    end.

Definition tryvote (site_id : string) (vote : Z) (rid rvote : reply) :
    js value :=
  console_log ("vote called with " +:+ site_id +:+ " - " +:+ pretty vote);;
  let url := "/vote/" in
  voter ← get_id false rid;
  len ← length_of voter;
  if bool_decide (len = 0%nat) then mret Undefined
  else
    (if (vote <? 0) || (1 <? vote) then update_status "Invalid vote!"
     else mret ());;
    let vote_data := [("site_id", site_id);
                      ("voter_id", to_string voter);
                      ("vote", pretty vote)] in
    attempt ← try_catch (json ← fetch_json url vote_data rvote;
                         mret (Some json))
                (λ error,
                   update_status ("Error casting vote: " +:+ error);;
                   mret None);
    match attempt with
    | None => throw type_error
    | Some None => throw type_error
    | Some (Some j) =>
        if code_is_200 j then
          if vote =? 1 then
            elem ← getElementById ("vote-" +:+ site_id);
            set_className elem "upvoted";;
            let closure := vote_closure site_id 0 in
            addEventListener elem (Invoke closure);;
            mret Undefined
          else if vote =? 0 then
            elem ← getElementById ("vote-" +:+ site_id);
            set_className elem "unvoted";;
            let closure := vote_closure site_id 1 in
            addEventListener elem (Yield closure);;
            mret Undefined
          else mret Undefined
        else
          update_status ("Unable to vote: "
                         +:+ to_string (of_field (status j)));;
          mret Undefined
    end.

(** [for (site_id of json['site_ids'])] iterates the field, and throws when
    the body is [null] or has no such field. *)
Definition iterate (field : option (list string)) : js (list string) :=
  match field with
  | Some xs => mret xs
  | None => throw type_error
  end.

Definition populate_votes (r : reply) : js value :=
  let url := "/votes/" in
  divs ← querySelectorAll "div";
  ids ← for_of_with divs []
          (λ ids elem,
             if vote_capable (eid elem) then
               let id := site_id_of (eid elem) in
               console_log ("pushing " +:+ id);;
               mret (ids ++ [id])%list
             else mret ids);
  for_of ids
    (λ site_id,
       elem ← getElementById ("vote-" +:+ site_id);
       set_className elem "unvoted";;
       let closure := vote_closure site_id 1 in
       addEventListener elem (Invoke closure);;
       set_innerHTML elem "&#10145;");;
  voter ← getItem voter_key;
  console_log ("voter id is " +:+ to_string voter);;
  try_catch
    (let data := [("site_ids", String.concat "," ids);
                  ("voter_id", to_string voter)] in
     json ← fetch_json url data r;
     upvoted ← iterate (json ≫= site_ids);
     for_of upvoted
       (λ site_id,
          elem ← getElementById ("vote-" +:+ site_id);
          set_className elem "upvoted";;
          let closure := vote_closure site_id 0 in
          addEventListener elem (Invoke closure));;
     mret Undefined)
    (λ error,
       console_log ("Error getting vote data: " +:+ error);;
       mret Null).

(** ** Activating a control *)

(** The calls [tryvote(id, vote)] that a click on an element makes: its
    listeners run in the order they were added. *)
Definition calls_of (l : listener) : list (string * Z) :=
  match l with
  | Invoke c => [(closure_id c, closure_vote c)]
  | Yield _ => []
  end.

Definition click_calls (e : element) : list (string * Z) :=
  listeners e ≫= calls_of.

(** The element that displays a site, as every lookup of the script finds
    it. *)
Definition control (site_id : string) (st : state) : option element :=
  i ← find_element ("vote-" +:+ site_id) (document st);
  document st !! i.

(** ** Notions used to state the properties *)

(** No hyphen occurs in the string. *)
Definition hyphen_free (s : string) : Prop := includes "-" s = false.

(** The part of a string before its first hyphen. *)
Definition before_hyphen (s : string) : string :=
  default EmptyString (head (split "-" s)).

(** The requests sent so far, oldest first, and the notices shown. *)
Definition requests (t : list event) : list (string * list (string * string)) :=
  t ≫= λ e, match e with Fetch url body => [(url, body)] | _ => [] end.

Definition notices (t : list event) : list string :=
  t ≫= λ e, match e with Alert msg => [msg] | _ => [] end.

(** The server confirms the request: the body is an object with code 200. *)
Definition confirmed (r : reply) : Prop :=
  match r with
  | Parsed j => code j = Some 200
  | _ => False
  end.

(** A failure the script reports: network exception, body that does not
    parse, or an object with a code other than 200 or without code.  The
    body [null] is neither confirmed nor reported. *)
Definition failed (r : reply) : Prop :=
  match r with
  | Rejected _ | Unparsable _ => True
  | Parsed j => code j ≠ Some 200
  | NullBody => False
  end.

(** The notices [get_id] shows when it is answered [r], and the ones
    [tryvote] shows when the cast is answered [r]: one for a failure it
    reports, none otherwise. *)
Definition issuance_notices (r : reply) : list string :=
  match r with
  | Rejected error | Unparsable error =>
      ["Error getting poster id: " +:+ error]
  | Parsed j =>
      if code_is_200 j then []
      else ["Unable to generate id: " +:+ to_string (of_field (status j))]
  | NullBody => []
  end.

Definition cast_notices (r : reply) : list string :=
  match r with
  | Rejected error | Unparsable error => ["Error casting vote: " +:+ error]
  | Parsed j =>
      if code_is_200 j then []
      else ["Unable to vote: " +:+ to_string (of_field (status j))]
  | NullBody => []
  end.

(** The identity held in local storage, when it is a non-empty string. *)
Definition stored_identity (st : state) : option string :=
  match localStorage st !! voter_key with
  | Some (String c s) => Some (String c s)
  | _ => None
  end.

(** The identity a cast works with: the stored one or, when there is none,
    the one a confirmed issuance returns, provided it is a non-empty
    string. *)
Definition identity_for (rid : reply) (st : state) : option string :=
  match stored_identity st with
  | Some v => Some v
  | None =>
      match rid with
      | Parsed j =>
          if code_is_200 j then
            match voter_id j with
            | Some (String c s) => Some (String c s)
            | _ => None
            end
          else None
      | _ => None
      end
  end.

(** A later call of [tryvote] with the replies it gets, and a session of
    such calls, each run to completion before the next. *)
Record cast : Type := Cast {
  cast_site : string;
  cast_vote : Z;
  cast_rid : reply;
  cast_rvote : reply
}.

Fixpoint session (casts : list cast) (st : state) : state :=
  match casts with
  | [] => st
  | c :: casts' =>
      session casts'
        (tryvote (cast_site c) (cast_vote c) (cast_rid c) (cast_rvote c) st).2
  end.

(** The form [tryvote] posts to [/vote/]. *)
Definition vote_form (site_id voter : string) (vote : Z) :
    list (string * string) :=
  [("site_id", site_id); ("voter_id", voter); ("vote", pretty vote)].

(** The first line [tryvote] logs, and the notice it gives for a vote that
    is neither 0 nor 1. *)
Definition call_log (site_id : string) (vote : Z) : event :=
  Log ("vote called with " +:+ site_id +:+ " - " +:+ pretty vote).

Definition invalid_notice (vote : Z) : list event :=
  if (vote <? 0) || (1 <? vote) then [Alert "Invalid vote!"] else [].

(** The site ids discovery collects from a document, in document order. *)
Definition discovered (doc : list element) : list string :=
  site_id_of <$>
    filter (λ i, vote_capable i = true)
      (eid <$> filter (λ e, tagName e = "div") doc).

(** Every discovered site id is the id of some element once prefixed with
    [vote-], which is how the script looks the control up again. *)
Definition targets_resolve (st : state) : Prop :=
  Forall
    (λ site_id, is_Some (find_element ("vote-" +:+ site_id) (document st)))
    (discovered (document st)).

(** The rendering the script expects: a vote-capable [div] has the id
    [vote-] followed by a site id without hyphen. *)
Definition conventional (st : state) : Prop :=
  Forall (λ e, tagName e = "div" → vote_capable (eid e) = true →
               ∃ site_id, eid e = "vote-" +:+ site_id ∧ hyphen_free site_id)
    (document st).

(** A page as loaded: the script has registered no listener yet. *)
Definition pristine (st : state) : Prop :=
  Forall (λ e, listeners e = []) (document st).

(** What the second loop of [populate_votes] does to the control of
    [site_id]. *)
Definition initialise (site_id : string) (e : element) : element :=
  with_innerHTML "&#10145;"
    (with_listener (Invoke (vote_closure site_id 1))
       (with_className "unvoted" e)).

(** Every listener of the element calls [tryvote] with vote 1 for the site
    the element is looked up as. *)
Definition bound_to_upvote (e : element) : Prop :=
  Forall (λ l, ∃ site_id, l = Invoke (vote_closure site_id 1) ∧
                          eid e = "vote-" +:+ site_id)
    (listeners e).

(** The control of the site is there, shows [unvoted] and has a listener. *)
Definition shows_unvoted (site_id : string) (doc : list element) : Prop :=
  ∃ i e, find_element ("vote-" +:+ site_id) doc = Some i ∧
         doc !! i = Some e ∧
         className e = "unvoted" ∧
         listeners e ≠ [].

(** The bulk request fails: it is rejected, the body does not parse, the
    body is [null], or the body has no [site_ids]. *)
Definition bulk_failed (r : reply) : Prop :=
  match r with
  | Parsed j => site_ids j = None
  | _ => True
  end.

(** The error the [catch] of [populate_votes] then logs. *)
Definition bulk_error (r : reply) : string :=
  match r with
  | Rejected error | Unparsable error => error
  | Parsed _ | NullBody => type_error
  end.

(** The form [populate_votes] posts to [/votes/]. *)
Definition votes_form (st : state) : list (string * string) :=
  [("site_ids", String.concat "," (discovered (document st)));
   ("voter_id", match localStorage st !! voter_key with
                | Some s => s
                | None => "null"
                end)].

(** [quiet P st st']: from [st] to [st'] local storage has not changed and
    only events satisfying [P] have happened. *)
Definition quiet (P : event → Prop) (st st' : state) : Prop :=
  localStorage st' = localStorage st ∧
  ∃ evs, trace st' = trace st ++ evs ∧ Forall P evs.

(** A computation that is quiet from every state, however it completes. *)
Definition keeps (P : event → Prop) {A : Type} (m : js A) : Prop :=
  ∀ st, quiet P st (m st).2.

(** The event is not a request to the given endpoint, or is no request. *)
Definition not_to (url : string) (e : event) : Prop :=
  match e with
  | Fetch url' _ => url' ≠ url
  | _ => True
  end.

Definition no_request (e : event) : Prop :=
  match e with
  | Fetch _ _ => False
  | _ => True
  end.

(** What the third loop of [populate_votes] does to the control of
    [site_id]. *)
Definition mark_upvoted (site_id : string) (e : element) : element :=
  with_listener (Invoke (vote_closure site_id 0)) (with_className "upvoted" e).

(** The document after a loop that goes through [ids] and updates, for each,
    the control it looks up ([upd id] is what one turn does to it).  The
    loops of the script throw on an id without control; this function is
    used where every id has one. *)
Fixpoint update_controls (upd : string → element → element)
    (ids : list string) (doc : list element) : list element :=
  match ids with
  | [] => doc
  | id :: ids' =>
      update_controls upd ids'
        match find_element ("vote-" +:+ id) doc with
        | Some i => alter (upd id) i doc
        | None => doc
        end
  end.

(** The control of the site is there and satisfies [Q]. *)
Definition control_has (site_id : string) (Q : element → Prop)
    (doc : list element) : Prop :=
  ∃ i e, find_element ("vote-" +:+ site_id) doc = Some i ∧
         doc !! i = Some e ∧
         Q e.

(** From [st] to [st'] no element was added, removed, renamed or retagged,
    and the elements whose id is not [allowed] are as they were. *)
Definition touching (allowed : string → Prop) (st st' : state) : Prop :=
  Forall2 (λ e e', tagName e' = tagName e ∧ eid e' = eid e ∧
                   (¬ allowed (eid e) → e' = e))
    (document st) (document st').

(** The ids that start with [vote-]. *)
Definition vote_id (id : string) : Prop := String.prefix "vote-" id = true.

(** A computation that relates every state to the one it leaves, however it
    completes. *)
Definition respects (R : relation state) {A : Type} (m : js A) : Prop :=
  ∀ st, R st (m st).2.

(** The requests a call of [tryvote] adds: one to [/id/] unless an identity
    is stored, then the one to [/vote/] when it has an identity to vote
    with. *)
Definition cast_requests (site_id : string) (vote : Z) (rid : reply)
    (st : state) : list (string * list (string * string)) :=
  match stored_identity st with
  | Some _ => []
  | None => [("/id/", [])]
  end ++
  match identity_for rid st with
  | Some v => [("/vote/", vote_form site_id v vote)]
  | None => []
  end.

(** The state in which [populate_votes] awaits the reply, on a page whose
    targets resolve: the controls of the discovered sites initialised, the
    ids and the voter logged, the request sent. *)
Definition awaiting_votes (st : state) : state :=
  with_document
    (update_controls initialise (discovered (document st)) (document st))
    (after (((λ id, Log ("pushing " +:+ id)) <$> discovered (document st))
            ++ [Log ("voter id is " +:+ match localStorage st !! voter_key with
                                        | Some s => s
                                        | None => "null"
                                        end);
                Fetch "/votes/" (votes_form st)]) st).

(** The class hydration gives a site, by the ids of the reply that were
    applied. *)
Definition hydrated_class (applied : list string) (site_id : string) : string :=
  if decide (site_id ∈ applied) then "upvoted" else "unvoted".

(** * Properties *)

(** ** Splitting an element id *)

Section Split.

Lemma includes_hyphen_cons (c : ascii) (s : string) :
  includes "-" (String c s) = Ascii.eqb c "-" || includes "-" s.
Proof.
  cbn [includes String.prefix].
  destruct (ascii_dec "-" c) as [<- | Hne]; [by destruct s |].
  by destruct (Ascii.eqb_spec c "-") as [-> | _].
Qed.

Lemma split_cons_inv (sep : ascii) (s : string) :
  ∃ part parts, split sep s = part :: parts.
Proof.
  destruct s as [| c s]; cbn [split]; [by eauto |].
  destruct (Ascii.eqb c sep); [by eauto |].
  destruct (split sep s); eauto.
Qed.

Lemma concat_cons (sep x y : string) (l : list string) :
  String.concat sep (x :: y :: l) = x +:+ sep +:+ String.concat sep (y :: l).
Proof. done. Qed.

(** Joining the parts with the separator gives the string back. *)
Lemma concat_split (s : string) : String.concat "-" (split "-" s) = s.
Proof.
  induction s as [| c s IH]; [done |].
  cbn [split]. destruct (Ascii.eqb_spec c "-") as [-> | Hne].
  - destruct (split_cons_inv "-" s) as (p & ps & Hs).
    rewrite Hs in IH |- *. by rewrite concat_cons, IH.
  - destruct (split "-" s) as [| p ps]; [by inversion IH |].
    destruct ps as [| q ps].
    + cbn in IH |- *. by rewrite IH.
    + rewrite concat_cons in IH |- *. by rewrite <- IH.
Qed.

Lemma split_hyphen_free (s : string) : Forall hyphen_free (split "-" s).
Proof.
  induction s as [| c s IH]; [by repeat constructor |].
  cbn [split]. destruct (Ascii.eqb_spec c "-") as [-> | Hne].
  - by constructor.
  - destruct (split "-" s) as [| p ps]; inversion IH; subst;
      constructor; try done; unfold hyphen_free in *;
      rewrite includes_hyphen_cons;
      destruct (Ascii.eqb_spec c "-"); done.
Qed.

(** A string without hyphen is the only part of its split, and conversely. *)
Lemma split_single (s : string) : split "-" s = [s] ↔ hyphen_free s.
Proof.
  unfold hyphen_free. induction s as [| c s IH]; [done |].
  rewrite includes_hyphen_cons. cbn [split].
  destruct (Ascii.eqb_spec c "-") as [-> | Hne]; cbn [orb].
  - split; [| done]. destruct (split_cons_inv "-" s) as (p & ps & ->).
    intros [=].
  - rewrite <- IH. destruct (split_cons_inv "-" s) as (p & ps & ->).
    split; intros [= -> ->]; done.
Qed.

Lemma prefix_app (p s : string) :
  String.prefix p s = true → ∃ t, s = p +:+ t.
Proof.
  revert s. induction p as [| a p IH]; intros s Hp; [by exists s |].
  destruct s as [| b s]; [done |]. cbn [String.prefix] in Hp.
  destruct (ascii_dec a b) as [<- | _]; [| done].
  destruct (IH s Hp) as [t ->]. by exists t.
Qed.

Lemma includes_vote_hyphen (s : string) :
  vote_capable s = true → includes "-" s = true.
Proof.
  unfold vote_capable. induction s as [| c s IH]; [done |].
  rewrite includes_hyphen_cons. cbn [includes].
  intros [Hp | Hs]%orb_true_iff; [| by rewrite IH, orb_true_r].
  apply prefix_app in Hp as [t Ht]. rewrite <- includes_hyphen_cons, Ht.
  change ("vote-" +:+ t) with (String "v" (String "o" (String "t"
    (String "e" (String "-" t))))).
  by rewrite !includes_hyphen_cons.
Qed.

(** The id of a vote-capable element has a second part. *)
Lemma site_id_of_defined (s : string) :
  includes "-" s = true →
  ∃ before after, split "-" s = before :: site_id_of s :: after.
Proof.
  intros Hs. unfold site_id_of.
  destruct (split_cons_inv "-" s) as (p & [| q ps] & Hsplit).
  - assert (Hp : hyphen_free p).
    { pose proof (split_hyphen_free s) as HF. rewrite Hsplit in HF.
      by inversion HF. }
    pose proof (concat_split s) as Hc. rewrite Hsplit in Hc.
    cbn in Hc. subst p. unfold hyphen_free in Hp. congruence.
  - rewrite Hsplit. cbn. eauto.
Qed.

Lemma split_vote_prefix (site_id : string) :
  split "-" ("vote-" +:+ site_id) = "vote" :: split "-" site_id.
Proof.
  change ("vote-" +:+ site_id) with (String "v" (String "o" (String "t"
    (String "e" (String "-" site_id))))).
  cbn [split Ascii.eqb Bool.eqb].
  by destruct (split_cons_inv "-" site_id) as (p & ps & ->).
Qed.

Lemma site_id_of_vote (site_id : string) :
  site_id_of ("vote-" +:+ site_id) = before_hyphen site_id.
Proof.
  unfold site_id_of, before_hyphen. rewrite split_vote_prefix.
  by destruct (split "-" site_id).
Qed.

Lemma append_empty_r (s : string) : s +:+ EmptyString = s.
Proof.
  induction s as [| c s IH]; [done |].
  change (String c (s +:+ EmptyString) = String c s). by f_equal.
Qed.

Lemma before_hyphen_prefix (s : string) :
  ∃ tail, s = before_hyphen s +:+ tail ∧
          (tail = EmptyString ∨ ∃ t, tail = String "-" t).
Proof.
  unfold before_hyphen. pose proof (concat_split s) as Hc.
  destruct (split "-" s) as [| p [| q ps]]; cbn [head default].
  - exists s. split; [done |]. left. by rewrite <- Hc.
  - exists EmptyString. cbn in Hc. subst p. split; [| by left].
    by rewrite append_empty_r.
  - rewrite concat_cons in Hc.
    exists ("-" +:+ String.concat "-" (q :: ps)). split; [done |].
    right. eauto.
Qed.

Lemma before_hyphen_fixed (s : string) : before_hyphen s = s ↔ hyphen_free s.
Proof.
  rewrite <- split_single. unfold before_hyphen.
  pose proof (concat_split s) as Hc.
  destruct (split "-" s) as [| p [| q ps]] eqn:Hs; cbn [head default].
  - destruct (split_cons_inv "-" s) as (? & ? & ?); congruence.
  - cbn in Hc. by subst p.
  - split; [| intros [=]]. cbn [id]. intros ->. rewrite concat_cons in Hc.
    exfalso. revert Hc. generalize (String.concat "-" (q :: ps)).
    clear. intros t. induction s as [| c s IH]; [done |].
    change (String c (s +:+ "-" +:+ t) = String c s → False).
    intros [= Hc]. by apply IH.
Qed.

End Split.

(** ** Running computations *)

Section Run.

Context {A B : Type}.

Lemma bind_normal (m : js A) (f : A → js B) (st st' : state) (a : A) :
  m st = (Normal a, st') → (m ≫= f) st = f a st'.
Proof. unfold mbind, js_bind. by intros ->. Qed.

Lemma bind_throw (m : js A) (f : A → js B) (st st' : state) (error : string) :
  m st = (Throw error, st') → (m ≫= f) st = (Throw error, st').
Proof. unfold mbind, js_bind. by intros ->. Qed.

End Run.

(** Projections of the updated states. *)
Lemma document_after (evs : list event) (st : state) :
  document (after evs st) = document st.
Proof. done. Qed.

Lemma localStorage_after (evs : list event) (st : state) :
  localStorage (after evs st) = localStorage st.
Proof. done. Qed.

Lemma trace_after (evs : list event) (st : state) :
  trace (after evs st) = trace st ++ evs.
Proof. done. Qed.

Lemma document_with_document (doc : list element) (st : state) :
  document (with_document doc st) = doc.
Proof. done. Qed.

Lemma localStorage_with_document (doc : list element) (st : state) :
  localStorage (with_document doc st) = localStorage st.
Proof. done. Qed.

Lemma trace_with_document (doc : list element) (st : state) :
  trace (with_document doc st) = trace st.
Proof. done. Qed.

Lemma document_with_localStorage (ls : gmap string string) (st : state) :
  document (with_localStorage ls st) = document st.
Proof. done. Qed.

Lemma localStorage_with_localStorage (ls : gmap string string) (st : state) :
  localStorage (with_localStorage ls st) = ls.
Proof. done. Qed.

Lemma trace_with_localStorage (ls : gmap string string) (st : state) :
  trace (with_localStorage ls st) = trace st.
Proof. done. Qed.

Create Rewrite HintDb state.
#[local] Hint Rewrite document_after localStorage_after trace_after
  document_with_document localStorage_with_document trace_with_document
  document_with_localStorage localStorage_with_localStorage
  trace_with_localStorage : state.

Lemma after_after (evs1 evs2 : list event) (st : state) :
  after evs2 (after evs1 st) = after (evs1 ++ evs2) st.
Proof. unfold after. cbn. by rewrite app_assoc. Qed.

Lemma after_nil (st : state) : after [] st = st.
Proof. destruct st. unfold after. cbn. by rewrite app_nil_r. Qed.

(** ** Computations that leave the store alone *)

Section Frame.

Variable P : event → Prop.

Lemma quiet_refl (st : state) : quiet P st st.
Proof. split; [done |]. exists []. by rewrite app_nil_r. Qed.

Lemma quiet_trans (st1 st2 st3 : state) :
  quiet P st1 st2 → quiet P st2 st3 → quiet P st1 st3.
Proof.
  intros [Hls1 (evs1 & Htr1 & HP1)] [Hls2 (evs2 & Htr2 & HP2)].
  split; [congruence |]. exists (evs1 ++ evs2).
  rewrite Htr2, Htr1, app_assoc. split; [done |]. by apply Forall_app.
Qed.

Lemma quiet_after (evs : list event) (st : state) :
  Forall P evs → quiet P st (after evs st).
Proof. intros HP. split; [done |]. by exists evs. Qed.

Lemma quiet_with_document (doc : list element) (st : state) :
  quiet P st (with_document doc st).
Proof. split; [done |]. exists []. cbn. by rewrite app_nil_r. Qed.

Context {A B : Type}.

Lemma keeps_ret (a : A) : keeps P (mret a : js A).
Proof. intros st. apply quiet_refl. Qed.

Lemma keeps_throw (error : string) : keeps P (throw error : js A).
Proof. intros st. apply quiet_refl. Qed.

Lemma keeps_bind (m : js A) (f : A → js B) :
  keeps P m → (∀ a, keeps P (f a)) → keeps P (m ≫= f).
Proof.
  intros Hm Hf st. unfold mbind, js_bind. specialize (Hm st).
  destruct (m st) as [[a | error] st1]; [| done].
  eapply quiet_trans; [exact Hm | apply Hf].
Qed.

Lemma keeps_try_catch (m : js A) (handler : string → js A) :
  keeps P m → (∀ error, keeps P (handler error)) →
  keeps P (try_catch m handler).
Proof.
  intros Hm Hh st. unfold try_catch. specialize (Hm st).
  destruct (m st) as [[a | error] st1]; [done |].
  eapply quiet_trans; [exact Hm | apply Hh].
Qed.

Lemma keeps_for_of (xs : list A) (body : A → js ()) :
  (∀ x, keeps P (body x)) → keeps P (for_of xs body).
Proof.
  intros Hbody. induction xs as [| x xs IH]; cbn [for_of].
  - intros st. apply quiet_refl.
  - intros st. unfold mbind, js_bind. pose proof (Hbody x st) as Hx.
    destruct (body x st) as [[[] | error] st1]; [| done].
    eapply quiet_trans; [exact Hx | apply IH].
Qed.

Lemma keeps_for_of_with (xs : list A) (acc : B) (body : B → A → js B) :
  (∀ acc x, keeps P (body acc x)) → keeps P (for_of_with xs acc body).
Proof.
  intros Hbody. revert acc. induction xs as [| x xs IH]; intros acc;
    cbn [for_of_with].
  - intros st. apply quiet_refl.
  - intros st. unfold mbind, js_bind. pose proof (Hbody acc x st) as Hx.
    destruct (body acc x st) as [[acc' | error] st1]; [| done].
    eapply quiet_trans; [exact Hx | apply IH].
Qed.

End Frame.

Lemma keeps_emit (P : event → Prop) (e : event) : P e → keeps P (emit e).
Proof. intros He st. apply quiet_after. by constructor. Qed.

Lemma keeps_fetch_json (P : event → Prop) (url : string)
    (body : list (string * string)) (r : reply) :
  P (Fetch url body) → keeps P (fetch_json url body r).
Proof.
  intros HP. unfold fetch_json. apply keeps_bind; [by apply keeps_emit |].
  intros _. destruct r; auto using keeps_throw, keeps_ret.
Qed.

Lemma keeps_getItem (P : event → Prop) (key : string) : keeps P (getItem key).
Proof. intros st. apply quiet_refl. Qed.

Lemma keeps_querySelectorAll (P : event → Prop) (tag : string) :
  keeps P (querySelectorAll tag).
Proof. intros st. apply quiet_refl. Qed.

Lemma keeps_getElementById (P : event → Prop) (id : string) :
  keeps P (getElementById id).
Proof. intros st. apply quiet_refl. Qed.

Lemma keeps_update_element (P : event → Prop) (elem : option nat)
    (f : element → element) :
  keeps P (update_element elem f).
Proof.
  destruct elem as [i |]; intros st;
    [apply quiet_with_document | apply quiet_refl].
Qed.

Lemma keeps_iterate (P : event → Prop) (field : option (list string)) :
  keeps P (iterate field).
Proof. destruct field; intros st; apply quiet_refl. Qed.

(** A failure the script reports has exactly one notice. *)
Lemma failed_issuance_notices (r : reply) :
  failed r → ∃ notice, issuance_notices r = [notice].
Proof.
  destruct r as [e | e | j |]; cbn; [by eexists.. | | done].
  intros Hj. unfold code_is_200. rewrite bool_decide_eq_false_2 by done.
  by eexists.
Qed.

Lemma failed_cast_notices (r : reply) :
  failed r → ∃ notice, cast_notices r = [notice].
Proof.
  destruct r as [e | e | j |]; cbn; [by eexists.. | | done].
  intros Hj. unfold code_is_200. rewrite bool_decide_eq_false_2 by done.
  by eexists.
Qed.

(** ** Obtaining the identity *)

Lemma stored_identity_after (evs : list event) (st : state) :
  stored_identity (after evs st) = stored_identity st.
Proof. done. Qed.

Lemma stored_identity_nonempty (st : state) (v : string) :
  stored_identity st = Some v → v ≠ EmptyString.
Proof.
  unfold stored_identity.
  destruct (localStorage st !! voter_key) as [[|]|]; naive_solver.
Qed.

Lemma stored_identity_lookup (st : state) (v : string) :
  stored_identity st = Some v → localStorage st !! voter_key = Some v.
Proof.
  unfold stored_identity.
  destruct (localStorage st !! voter_key) as [[|]|]; naive_solver.
Qed.

Ltac js_unfold :=
  unfold fetch_json, update_status, alert, console_log, emit, getItem,
    setItem, try_catch, throw in *;
  unfold mbind, js_bind, mret, js_ret in *.

(** A stored identity is returned without any request. *)
Lemma get_id_cached (r : reply) (st : state) (v : string) :
  stored_identity st = Some v → get_id false r st = (Normal (Str v), st).
Proof.
  unfold stored_identity, get_id. js_unfold.
  destruct (localStorage st !! voter_key) as [[| c s] |]; intros [= <-]; done.
Qed.

(** Without one (or when forced) a failed issuance gives [null] after a
    notice. *)
Lemma get_id_failed (force : bool) (r : reply) (st : state) :
  force = true ∨ stored_identity st = None → failed r →
  get_id force r st
  = (Normal Null,
     after (Fetch "/id/" [] :: (Alert <$> issuance_notices r)) st).
Proof.
  intros Hneed Hr. unfold get_id, stored_identity in *. js_unfold.
  assert (Hcode : ∀ j, r = Parsed j → code_is_200 j = false).
  { intros j ->. by apply bool_decide_eq_false_2. }
  destruct (localStorage st !! voter_key) as [[| c s] |], force;
    try (by destruct Hneed);
    destruct r as [e | e | j |]; try done; cbn;
    rewrite ?andb_false_r, ?(Hcode j eq_refl); cbn; by rewrite ?after_after.
Qed.

(** On the body [null] the access to its code throws: nothing is shown and
    nothing is returned. *)
Lemma get_id_null (force : bool) (st : state) :
  force = true ∨ stored_identity st = None →
  get_id force NullBody st = (Throw type_error, after [Fetch "/id/" []] st).
Proof.
  intros Hneed. unfold get_id, stored_identity in *. js_unfold.
  destruct (localStorage st !! voter_key) as [[| c s] |], force;
    try (by destruct Hneed); cbn; by rewrite ?andb_false_r.
Qed.

(** A confirmed issuance stores the identity of the reply and returns it. *)
Lemma get_id_issued (force : bool) (j : json) (st : state) :
  force = true ∨ stored_identity st = None → code j = Some 200 →
  get_id force (Parsed j) st
  = (Normal (of_field (voter_id j)),
     with_localStorage
       (<[voter_key := to_string (of_field (voter_id j))]> (localStorage st))
       (after [Fetch "/id/" []] st)).
Proof.
  intros Hneed Hj. unfold get_id, stored_identity in *. js_unfold.
  assert (Hcode : code_is_200 j = true) by by apply bool_decide_eq_true_2.
  destruct (localStorage st !! voter_key) as [[| c s] |], force;
    try (by destruct Hneed);
    cbn; rewrite ?andb_false_r, ?Hcode; cbn; by rewrite ?Hcode.
Qed.

(** ** Casting a vote *)

(** What [tryvote] does once [get_id] has given it a non-empty identity,
    by the reply to the [/vote/] request. *)
Lemma tryvote_failed (site_id : string) (vote : Z) (rid rvote : reply)
    (st st1 : state) (v : string) :
  get_id false rid (after [call_log site_id vote] st) = (Normal (Str v), st1) →
  v ≠ EmptyString → failed rvote →
  ∃ c, tryvote site_id vote rid rvote st
       = (c, after (invalid_notice vote ++
                    Fetch "/vote/" (vote_form site_id v vote)
                    :: (Alert <$> cast_notices rvote)) st1).
Proof.
  intros Hid Hv Hr. unfold tryvote, call_log in *. js_unfold. rewrite Hid.
  destruct v as [| a v]; [done |]. cbn.
  rewrite (bool_decide_eq_false_2 (S _ = 0%nat)) by done.
  assert (Hcode : ∀ j, rvote = Parsed j → code_is_200 j = false).
  { intros j ->. by apply bool_decide_eq_false_2. }
  unfold invalid_notice.
  destruct ((vote <? 0) || (1 <? vote)), rvote as [e | e | j |];
    try done; cbn;
    rewrite ?(Hcode j eq_refl), ?after_after, ?after_nil; cbn; eauto.
Qed.

(** On the body [null] the access to its code throws after the request,
    before anything is shown or changed. *)
Lemma tryvote_null (site_id : string) (vote : Z) (rid : reply)
    (st st1 : state) (v : string) :
  get_id false rid (after [call_log site_id vote] st) = (Normal (Str v), st1) →
  v ≠ EmptyString →
  tryvote site_id vote rid NullBody st
  = (Throw type_error,
     after (invalid_notice vote ++
            [Fetch "/vote/" (vote_form site_id v vote)]) st1).
Proof.
  intros Hid Hv. unfold tryvote, call_log in *. js_unfold. rewrite Hid.
  destruct v as [| a v]; [done |]. cbn.
  rewrite (bool_decide_eq_false_2 (S _ = 0%nat)) by done.
  unfold invalid_notice.
  destruct ((vote <? 0) || (1 <? vote)); cbn;
    by rewrite ?after_after, ?after_nil.
Qed.

Lemma tryvote_upvoted (site_id : string) (rid : reply) (j : json)
    (st st1 : state) (v : string) (i : nat) :
  get_id false rid (after [call_log site_id 1] st) = (Normal (Str v), st1) →
  v ≠ EmptyString → code j = Some 200 →
  find_element ("vote-" +:+ site_id) (document st1) = Some i →
  tryvote site_id 1 rid (Parsed j) st
  = (Normal Undefined,
     with_document
       (alter (with_listener (Invoke (vote_closure site_id 0))) i
          (alter (with_className "upvoted") i (document st1)))
       (after [Fetch "/vote/" (vote_form site_id v 1)] st1)).
Proof.
  intros Hid Hv Hj Hi. unfold tryvote, call_log in *. js_unfold. rewrite Hid.
  destruct v as [| a v]; [done |]. cbn.
  rewrite (bool_decide_eq_false_2 (S _ = 0%nat)) by done.
  unfold code_is_200. rewrite bool_decide_eq_true_2 by done.
  unfold getElementById. cbn. autorewrite with state. by rewrite Hi.
Qed.

Lemma tryvote_unvoted (site_id : string) (rid : reply) (j : json)
    (st st1 : state) (v : string) (i : nat) :
  get_id false rid (after [call_log site_id 0] st) = (Normal (Str v), st1) →
  v ≠ EmptyString → code j = Some 200 →
  find_element ("vote-" +:+ site_id) (document st1) = Some i →
  tryvote site_id 0 rid (Parsed j) st
  = (Normal Undefined,
     with_document
       (alter (with_listener (Yield (vote_closure site_id 1))) i
          (alter (with_className "unvoted") i (document st1)))
       (after [Fetch "/vote/" (vote_form site_id v 0)] st1)).
Proof.
  intros Hid Hv Hj Hi. unfold tryvote, call_log in *. js_unfold. rewrite Hid.
  destruct v as [| a v]; [done |]. cbn.
  rewrite (bool_decide_eq_false_2 (S _ = 0%nat)) by done.
  unfold code_is_200. rewrite bool_decide_eq_true_2 by done.
  unfold getElementById. cbn. autorewrite with state. by rewrite Hi.
Qed.

(** Whatever the reply, an identity in hand means the request is sent,
    after the notice for a vote out of range. *)
Lemma tryvote_sends (site_id : string) (vote : Z) (rid rvote : reply)
    (st st1 : state) (v : string) :
  get_id false rid (after [call_log site_id vote] st) = (Normal (Str v), st1) →
  v ≠ EmptyString →
  ∃ post,
    trace (tryvote site_id vote rid rvote st).2
    = trace st1 ++ invalid_notice vote
        ++ [Fetch "/vote/" (vote_form site_id v vote)] ++ post
    ∧ requests post = [] ∧
    localStorage (tryvote site_id vote rid rvote st).2 = localStorage st1.
Proof.
  intros Hid Hv. unfold tryvote, call_log in *. js_unfold. rewrite Hid.
  destruct v as [| a v]; [done |]. cbn.
  rewrite (bool_decide_eq_false_2 (S _ = 0%nat)) by done.
  unfold invalid_notice, getElementById, set_className, addEventListener,
    update_element.
  destruct ((vote <? 0) || (1 <? vote)), rvote as [e | e | j |]; cbn;
    try destruct (code_is_200 j); try destruct (vote =? 1);
    try destruct (vote =? 0); cbn;
    try destruct (find_element _ _); cbn;
    rewrite <- ?app_assoc; cbn; eexists; (split; [| split]);
      try reflexivity; try (by rewrite app_nil_r); done.
Qed.

Lemma requests_app (t1 t2 : list event) :
  requests (t1 ++ t2) = requests t1 ++ requests t2.
Proof. unfold requests. apply bind_app. Qed.

Lemma notices_app (t1 t2 : list event) :
  notices (t1 ++ t2) = notices t1 ++ notices t2.
Proof. unfold notices. apply bind_app. Qed.

Lemma requests_cons (e : event) (t : list event) :
  requests (e :: t)
  = match e with Fetch url body => [(url, body)] | _ => [] end ++ requests t.
Proof. done. Qed.

Lemma notices_cons (e : event) (t : list event) :
  notices (e :: t)
  = match e with Alert msg => [msg] | _ => [] end ++ notices t.
Proof. done. Qed.

Lemma requests_alerts (msgs : list string) : requests (Alert <$> msgs) = [].
Proof. by induction msgs. Qed.

Lemma notices_alerts (msgs : list string) : notices (Alert <$> msgs) = msgs.
Proof.
  induction msgs as [| msg msgs IH]; [done |].
  rewrite fmap_cons, notices_cons, IH. done.
Qed.

(** Requests and notices of an explicit list of events. *)
Ltac events :=
  rewrite ?requests_app, ?notices_app, ?requests_cons, ?notices_cons;
  change (requests []) with (@nil (string * list (string * string)));
  change (notices []) with (@nil string);
  cbn [app]; rewrite ?app_nil_r.

Lemma requests_invalid_notice (vote : Z) : requests (invalid_notice vote) = [].
Proof. unfold invalid_notice. by destruct ((vote <? 0) || (1 <? vote)). Qed.

Lemma identity_for_nonempty (rid : reply) (st : state) (v : string) :
  identity_for rid st = Some v → v ≠ EmptyString.
Proof.
  unfold identity_for. destruct (stored_identity st) eqn:Hs.
  - intros [= <-]. by eapply stored_identity_nonempty.
  - destruct rid as [| | j |]; try done.
    destruct (code_is_200 j), (voter_id j) as [[|] |]; naive_solver.
Qed.

(** [get_id] gives that identity, with at most the one request to [/id/],
    no notice, and the identity in store afterwards. *)
Lemma get_id_identity (rid : reply) (st : state) (v : string) :
  identity_for rid st = Some v →
  ∃ st1 pre,
    get_id false rid st = (Normal (Str v), st1) ∧
    document st1 = document st ∧
    trace st1 = trace st ++ pre ∧
    requests pre = match stored_identity st with
                   | Some _ => []
                   | None => [("/id/", [])]
                   end ∧
    notices pre = [] ∧
    stored_identity st1 = Some v.
Proof.
  unfold identity_for. destruct (stored_identity st) as [w |] eqn:Hs.
  - intros [= ->]. exists st, []. rewrite app_nil_r.
    by rewrite (get_id_cached _ _ _ Hs).
  - destruct rid as [| | j |]; try done.
    destruct (code_is_200 j) eqn:Hj; [| done].
    apply bool_decide_eq_true_1 in Hj.
    destruct (voter_id j) as [[| c s] |] eqn:Hv; intros [= <-].
    rewrite (get_id_issued false j st) by auto. rewrite Hv.
    eexists _, [Fetch "/id/" []]. repeat split.
    unfold stored_identity. autorewrite with state. cbn.
    by rewrite lookup_insert_eq.
Qed.

(** ** The control of a site *)

Lemma find_element_alter (f : element → element) (i : nat) (id : string)
    (doc : list element) :
  (∀ e, eid (f e) = eid e) →
  find_element id (alter f i doc) = find_element id doc.
Proof.
  intros Hf. unfold find_element. revert i.
  induction doc as [| x doc IH]; intros i; [done |].
  destruct i as [| i]; cbn [alter list_alter list_find].
  - rewrite Hf. by destruct (decide (eid x = id)).
  - fold (alter f i doc). destruct (decide (eid x = id)); [done |].
    specialize (IH i). destruct (list_find _ (alter f i doc)) as [[]|],
      (list_find _ doc) as [[]|]; by simplify_eq/=.
Qed.

Lemma find_element_lookup (id : string) (doc : list element) (i : nat) :
  find_element id doc = Some i → ∃ e, doc !! i = Some e ∧ eid e = id.
Proof.
  unfold find_element. destruct (list_find _ doc) as [[k e] |] eqn:Hfind;
    intros [= <-]. apply list_find_Some in Hfind as (He & Heid & _).
  by exists e.
Qed.

Lemma control_lookup (site_id : string) (st : state) (e : element) :
  control site_id st = Some e ↔
  ∃ i, find_element ("vote-" +:+ site_id) (document st) = Some i ∧
       document st !! i = Some e.
Proof.
  unfold control.
  destruct (find_element _ (document st)) as [i |]; cbn; split.
  - intros He. by exists i.
  - by intros (k & [= <-] & He).
  - done.
  - by intros (k & [=] & _).
Qed.

(** Changing the element a site is looked up as, without touching its id,
    changes the control of that site accordingly. *)
Lemma control_alter (f : element → element) (i : nat) (site_id : string)
    (st st' : state) (e : element) :
  (∀ e, eid (f e) = eid e) →
  find_element ("vote-" +:+ site_id) (document st) = Some i →
  document st' = alter f i (document st) →
  control site_id st = Some e →
  control site_id st' = Some (f e).
Proof.
  intros Hf Hi Hdoc (k & Hk & He)%control_lookup. simplify_eq.
  apply control_lookup. exists i. rewrite Hdoc, find_element_alter by done.
  split; [done |]. by rewrite list_lookup_alter_eq, He.
Qed.

(** The listener a confirmed cast adds, and the class it sets. *)
Lemma confirmed_cast (site_id : string) (vote : Z) (rid : reply) (j : json)
    (st : state) (e : element) (v : string) :
  identity_for rid st = Some v →
  control site_id st = Some e →
  code j = Some 200 →
  vote = 0 ∨ vote = 1 →
  let st' := (tryvote site_id vote rid (Parsed j) st).2 in
  control site_id st'
  = Some (with_listener
            (if vote =? 1 then Invoke (vote_closure site_id 0)
             else Yield (vote_closure site_id 1))
            (with_className (if vote =? 1 then "upvoted" else "unvoted") e)) ∧
  stored_identity st' = Some v.
Proof.
  intros Hid He Hj Hvote.
  destruct (get_id_identity rid (after [call_log site_id vote] st) v Hid)
    as (st1 & pre & Hget & Hdoc & _ & _ & _ & Hs1).
  pose proof (identity_for_nonempty _ _ _ Hid) as Hne.
  pose proof He as (i & Hi & Hlook)%control_lookup.
  autorewrite with state in Hdoc. rewrite <- Hdoc in Hi, Hlook.
  assert (He1 : control site_id st1 = Some e).
  { apply control_lookup. by exists i. }
  destruct Hvote as [-> | ->]; cbn [Z.eqb Pos.eqb].
  - rewrite (tryvote_unvoted site_id rid j st st1 v i) by done. cbn [snd].
    split; [| done].
    eapply (control_alter (with_listener _) i site_id
              (with_document (alter (with_className "unvoted") i (document st1))
                 st1)); try done.
    + by rewrite document_with_document, find_element_alter.
    + by eapply (control_alter (with_className _)).
  - rewrite (tryvote_upvoted site_id rid j st st1 v i) by done. cbn [snd].
    split; [| done].
    eapply (control_alter (with_listener _) i site_id
              (with_document (alter (with_className "upvoted") i (document st1))
                 st1)); try done.
    + by rewrite document_with_document, find_element_alter.
    + by eapply (control_alter (with_className _)).
Qed.

Lemma identity_for_stored (rid : reply) (st : state) (v : string) :
  stored_identity st = Some v → identity_for rid st = Some v.
Proof. unfold identity_for. by intros ->. Qed.

Lemma click_calls_with_listener (l : listener) (e : element) :
  click_calls (with_listener l e) = click_calls e ++ calls_of l.
Proof.
  unfold click_calls, with_listener. cbn [listeners].
  rewrite bind_app. cbn. by rewrite app_nil_r.
Qed.

Lemma click_calls_with_className (c : string) (e : element) :
  click_calls (with_className c e) = click_calls e.
Proof. done. Qed.

(** ** Toggling a vote *)

(** C1.  After a confirmed [tryvote(site_id, 1)] followed by a confirmed
    [tryvote(site_id, 0)] the control of the site shows [unvoted] again, but
    it is not bound as before: it keeps every listener it had, then the one
    of the first cast, which requests vote 0, then the one of the second
    cast, which requests nothing.  Its next activation therefore makes the
    calls it made before the toggle and then [tryvote(site_id, 0)]. *)
Theorem toggle_keeps_listeners (site_id : string) (rid1 rid0 : reply)
    (j1 j0 : json) (st : state) (e : element) (v : string) :
  identity_for rid1 st = Some v →
  control site_id st = Some e →
  code j1 = Some 200 →
  code j0 = Some 200 →
  let st1 := (tryvote site_id 1 rid1 (Parsed j1) st).2 in
  let st0 := (tryvote site_id 0 rid0 (Parsed j0) st1).2 in
  ∃ e', control site_id st0 = Some e' ∧
        className e' = "unvoted" ∧
        listeners e' = listeners e ++ [Invoke (vote_closure site_id 0);
                                       Yield (vote_closure site_id 1)] ∧
        click_calls e' = click_calls e ++ [(site_id, 0)].
Proof.
  intros Hid He Hj1 Hj0 st1 st0.
  destruct (confirmed_cast site_id 1 rid1 j1 st e v Hid He Hj1) as [He1 Hs1];
    [by right |]. fold st1 in He1, Hs1. cbn [Z.eqb Pos.eqb] in He1.
  destruct (confirmed_cast site_id 0 rid0 j0 st1 _ v
              (identity_for_stored rid0 _ _ Hs1) He1 Hj0) as [He0 _];
    [by left |]. fold st0 in He0. cbn [Z.eqb] in He0.
  eexists. split; [exact He0 |]. split; [done |]. split.
  - cbn. by rewrite <- app_assoc.
  - rewrite click_calls_with_listener, click_calls_with_className,
      click_calls_with_listener, click_calls_with_className. cbn.
    by rewrite app_nil_r.
Qed.

Lemma toggle_keeps_listeners_witness :
  let page := {| document := [Element "div" "vote-a1" "" "" []];
                 localStorage := {[ voter_key := "v-123" ]};
                 trace := [] |} in
  let st :=
    (populate_votes (Parsed (Json (Some 200) None None (Some []))) page).2 in
  let ok := Json (Some 200) None None None in
  let st1 := (tryvote "a1" 1 (Rejected "offline") (Parsed ok) st).2 in
  let st0 := (tryvote "a1" 0 (Rejected "offline") (Parsed ok) st1).2 in
  ∃ e', control "a1" st0 = Some e' ∧
        className e' = "unvoted" ∧
        listeners e' = [Invoke (vote_closure "a1" 1)]
                         ++ [Invoke (vote_closure "a1" 0);
                             Yield (vote_closure "a1" 1)] ∧
        click_calls e' = [("a1", 1)] ++ [("a1", 0)].
Proof.
  intros page st ok.
  apply (toggle_keeps_listeners "a1" (Rejected "offline") (Rejected "offline")
           ok ok st
           (Element "div" "vote-a1" "unvoted" "&#10145;"
              [Invoke (vote_closure "a1" 1)])
           "v-123"); reflexivity.
Defined.

(** C2.  A confirmed cast sets the class of the control and adds its
    listener in one go, but it removes nothing: every call the control made
    when activated before the cast it makes again when activated after it.
    In particular the activation that requested [vote] is followed by one
    that requests [vote] again. *)
Theorem rebinding_keeps_request (site_id : string) (vote : Z) (rid : reply)
    (j : json) (st : state) (e : element) (v : string) :
  identity_for rid st = Some v →
  control site_id st = Some e →
  code j = Some 200 →
  vote = 0 ∨ vote = 1 →
  (site_id, vote) ∈ click_calls e →
  ∃ e', control site_id (tryvote site_id vote rid (Parsed j) st).2 = Some e' ∧
        className e' = (if vote =? 1 then "upvoted" else "unvoted") ∧
        click_calls e `prefix_of` click_calls e' ∧
        (site_id, vote) ∈ click_calls e'.
Proof.
  intros Hid He Hj Hvote Hcall.
  destruct (confirmed_cast site_id vote rid j st e v Hid He Hj Hvote)
    as [He' _].
  eexists. split; [exact He' |]. split; [done |].
  rewrite click_calls_with_listener, click_calls_with_className.
  split; [by eexists |]. apply elem_of_app. by left.
Qed.

Lemma rebinding_keeps_request_witness :
  let page := {| document := [Element "div" "vote-a1" "" "" []];
                 localStorage := {[ voter_key := "v-123" ]};
                 trace := [] |} in
  let st :=
    (populate_votes (Parsed (Json (Some 200) None None (Some []))) page).2 in
  let e := Element "div" "vote-a1" "unvoted" "&#10145;"
             [Invoke (vote_closure "a1" 1)] in
  let ok := Json (Some 200) None None None in
  ∃ e', control "a1" (tryvote "a1" 1 (Rejected "offline") (Parsed ok) st).2
        = Some e' ∧
        className e' = "upvoted" ∧
        click_calls e `prefix_of` click_calls e' ∧
        ("a1", 1) ∈ click_calls e'.
Proof.
  intros page st e ok.
  apply (rebinding_keeps_request "a1" 1 (Rejected "offline") ok st e "v-123").
  - reflexivity.
  - reflexivity.
  - reflexivity.
  - by right.
  - apply list_elem_of_here.
Defined.

(** ** A cast that fails *)

(** X18.  When the [/vote/] request of a cast fails in a way the script
    reports (the request is rejected, the body does not parse, or the body
    is an object whose code is not 200), the document is what it was before
    the call (every element keeps its class and its listeners), exactly one
    [/vote/] request was sent, and the last thing that happened is the one
    notice for that failure. *)
Theorem reported_cast_failure_leaves_page (site_id : string) (vote : Z)
    (rid rvote : reply) (st : state) (v : string) :
  identity_for rid st = Some v →
  failed rvote →
  let st' := (tryvote site_id vote rid rvote st).2 in
  document st' = document st ∧
  ∃ pre notice,
    cast_notices rvote = [notice] ∧
    trace st' = trace st ++ pre
                  ++ [Fetch "/vote/" (vote_form site_id v vote);
                      Alert notice] ∧
    ∀ body, ("/vote/", body) ∉ requests pre.
Proof.
  intros Hid Hr.
  destruct (get_id_identity rid (after [call_log site_id vote] st) v Hid)
    as (st1 & pre & Hget & Hdoc & Htr & Hreq & _ & _).
  destruct (tryvote_failed site_id vote rid rvote st st1 v Hget
              (identity_for_nonempty _ _ _ Hid) Hr) as [c ->].
  cbn. autorewrite with state in *. split; [done |].
  destruct (failed_cast_notices rvote Hr) as [notice Hn].
  exists ([call_log site_id vote] ++ pre ++ invalid_notice vote), notice.
  split; [done |]. rewrite Hn.
  split; [rewrite Htr; by rewrite <- !app_assoc |].
  intros body. rewrite !requests_app, Hreq, requests_invalid_notice.
  rewrite stored_identity_after. cbn.
  destruct (stored_identity st); cbn;
    [apply not_elem_of_nil | by rewrite list_elem_of_singleton].
Qed.

Lemma reported_cast_failure_leaves_page_witness :
  let st := {| document := [Element "div" "vote-a1" "unvoted" "&#10145;"
                              [Invoke (vote_closure "a1" 1)]];
               localStorage := {[ voter_key := "v-123" ]};
               trace := [] |} in
  let rvote := Parsed (Json (Some 409) (Some "already voted") None None) in
  let st' := (tryvote "a1" 1 (Rejected "offline") rvote st).2 in
  document st' = document st ∧
  ∃ pre notice,
    cast_notices rvote = [notice] ∧
    trace st' = trace st ++ pre
                  ++ [Fetch "/vote/" (vote_form "a1" "v-123" 1);
                      Alert notice] ∧
    ∀ body, ("/vote/", body) ∉ requests pre.
Proof.
  apply (reported_cast_failure_leaves_page "a1" 1 (Rejected "offline")
           (Parsed (Json (Some 409) (Some "already voted") None None))).
  - reflexivity.
  - cbn. discriminate.
Defined.

(** C4.  A cast whose [/vote/] request is answered with the body [null]
    fails without any message: the access to the code of the body is
    outside the [try] and throws.  The document is what it was and exactly
    one [/vote/] request was sent, but that request is the last thing that
    happened, and the only notice the call can have shown is the one for a
    vote out of range, before the request. *)
Theorem cast_answered_null_shows_nothing (site_id : string) (vote : Z)
    (rid : reply) (st : state) (v : string) :
  identity_for rid st = Some v →
  let out := tryvote site_id vote rid NullBody st in
  out.1 = Throw type_error ∧
  document out.2 = document st ∧
  (∃ pre,
     trace out.2 = trace st ++ pre
                     ++ [Fetch "/vote/" (vote_form site_id v vote)] ∧
     ∀ body, ("/vote/", body) ∉ requests pre) ∧
  notices (trace out.2)
  = notices (trace st) ++ notices (invalid_notice vote).
Proof.
  intros Hid.
  destruct (get_id_identity rid (after [call_log site_id vote] st) v Hid)
    as (st1 & pre & Hget & Hdoc & Htr & Hreq & Hnot & _).
  rewrite (tryvote_null site_id vote rid st st1 v Hget
             (identity_for_nonempty _ _ _ Hid)).
  cbn. autorewrite with state in *. rewrite Htr.
  split; [done |]. split; [done |]. split.
  - exists ([call_log site_id vote] ++ pre ++ invalid_notice vote).
    split; [by rewrite <- !app_assoc |].
    intros body. rewrite !requests_app, Hreq, requests_invalid_notice.
    rewrite stored_identity_after. cbn.
    destruct (stored_identity st); cbn;
      [apply not_elem_of_nil | by rewrite list_elem_of_singleton].
  - rewrite !notices_app, Hnot. cbn. by rewrite !app_nil_r.
Qed.

Lemma cast_answered_null_shows_nothing_witness :
  let st := {| document := [Element "div" "vote-a1" "unvoted" "&#10145;"
                              [Invoke (vote_closure "a1" 1)]];
               localStorage := {[ voter_key := "v-123" ]};
               trace := [] |} in
  let out := tryvote "a1" 1 (Rejected "offline") NullBody st in
  out.1 = Throw type_error ∧
  document out.2 = document st ∧
  (∃ pre,
     trace out.2 = trace st ++ pre
                     ++ [Fetch "/vote/" (vote_form "a1" "v-123" 1)] ∧
     ∀ body, ("/vote/", body) ∉ requests pre) ∧
  notices (trace out.2) = notices (trace st) ++ notices (invalid_notice 1).
Proof.
  apply (cast_answered_null_shows_nothing "a1" 1 (Rejected "offline")).
  reflexivity.
Defined.

(** ** A failed issuance *)

(** X19.  When no identity is stored and the issuance fails in a way the
    script reports (the request is rejected, the body does not parse, or
    the body is an object whose code is not 200), [get_id] shows one notice
    and returns [null]; the cast that needed the identity ends there (on
    the [length] of [null]): the notice is the last thing that happened, no
    [/vote/] request was sent, and document and storage are untouched. *)
Theorem reported_issuance_failure_aborts_cast (site_id : string) (vote : Z)
    (rid rvote : reply) (st : state) :
  stored_identity st = None →
  failed rid →
  ∃ notice,
    issuance_notices rid = [notice] ∧
    (∀ force,
       get_id force rid st
       = (Normal Null, after [Fetch "/id/" []; Alert notice] st)) ∧
    tryvote site_id vote rid rvote st
    = (Throw type_error,
       after [call_log site_id vote; Fetch "/id/" []; Alert notice] st).
Proof.
  intros Hneed Hr. destruct (failed_issuance_notices rid Hr) as [notice Hn].
  exists notice. split; [done |].
  split; [intros force; rewrite get_id_failed, Hn by auto; done |].
  unfold tryvote. fold (call_log site_id vote). js_unfold.
  rewrite (get_id_failed false rid), Hn by auto. cbn. by rewrite after_after.
Qed.

Lemma reported_issuance_failure_aborts_cast_witness :
  let st := {| document := [Element "div" "vote-a1" "unvoted" "&#10145;"
                              [Invoke (vote_closure "a1" 1)]];
               localStorage := ∅;
               trace := [] |} in
  let rid := Parsed (Json (Some 500) (Some "try later") None None) in
  let rvote := Parsed (Json (Some 200) None None None) in
  ∃ notice,
    issuance_notices rid = [notice] ∧
    (∀ force,
       get_id force rid st
       = (Normal Null, after [Fetch "/id/" []; Alert notice] st)) ∧
    tryvote "a1" 1 rid rvote st
    = (Throw type_error,
       after [call_log "a1" 1; Fetch "/id/" []; Alert notice] st).
Proof.
  apply (reported_issuance_failure_aborts_cast "a1" 1
           (Parsed (Json (Some 500) (Some "try later") None None))
           (Parsed (Json (Some 200) None None None))).
  - reflexivity.
  - cbn. discriminate.
Defined.

(** C5.  An issuance answered with the body [null] does not make [get_id]
    return [null]: the access to the code of the body is outside the [try]
    and throws, whether the issuance is forced or not, right after the
    request and with no notice.  The cast that needed the identity ends on
    that exception: no [/vote/] request is sent and no notice is shown, and
    document and storage are untouched. *)
Theorem issuance_answered_null_throws (site_id : string) (vote : Z)
    (rvote : reply) (st : state) :
  stored_identity st = None →
  (∀ force,
     get_id force NullBody st
     = (Throw type_error, after [Fetch "/id/" []] st)) ∧
  tryvote site_id vote NullBody rvote st
  = (Throw type_error, after [call_log site_id vote; Fetch "/id/" []] st).
Proof.
  intros Hneed. split; [intros force; by apply get_id_null; auto |].
  unfold tryvote. fold (call_log site_id vote). js_unfold.
  rewrite (get_id_null false) by auto. cbn. by rewrite after_after.
Qed.

Lemma issuance_answered_null_throws_witness :
  let st := {| document := [Element "div" "vote-a1" "unvoted" "&#10145;"
                              [Invoke (vote_closure "a1" 1)]];
               localStorage := ∅;
               trace := [] |} in
  (∀ force,
     get_id force NullBody st
     = (Throw type_error, after [Fetch "/id/" []] st)) ∧
  tryvote "a1" 1 NullBody (Parsed (Json (Some 200) None None None)) st
  = (Throw type_error, after [call_log "a1" 1; Fetch "/id/" []] st).
Proof.
  apply (issuance_answered_null_throws "a1" 1
           (Parsed (Json (Some 200) None None None))).
  reflexivity.
Defined.

(** ** A vote out of range *)

(** C3.  For a vote below 0 or above 1 the notice is shown, and the
    [/vote/] request carrying that vote is sent all the same, right after
    it: nothing returns between the check and the request. *)
Theorem invalid_vote_is_sent (site_id : string) (vote : Z)
    (rid rvote : reply) (st : state) (v : string) :
  vote < 0 ∨ 1 < vote →
  identity_for rid st = Some v →
  ∃ pre post,
    trace (tryvote site_id vote rid rvote st).2
    = trace st ++ pre
        ++ [Alert "Invalid vote!"; Fetch "/vote/" (vote_form site_id v vote)]
        ++ post.
Proof.
  intros Hvote Hid.
  destruct (get_id_identity rid (after [call_log site_id vote] st) v Hid)
    as (st1 & pre & Hget & _ & Htr & _).
  destruct (tryvote_sends site_id vote rid rvote st st1 v Hget
              (identity_for_nonempty _ _ _ Hid)) as (post & -> & _).
  exists ([call_log site_id vote] ++ pre), post.
  rewrite Htr. autorewrite with state. unfold invalid_notice.
  replace ((vote <? 0) || (1 <? vote)) with true by (symmetry; lia).
  by rewrite <- !app_assoc.
Qed.

Lemma invalid_vote_is_sent_witness :
  let st := {| document := [Element "div" "vote-a1" "unvoted" "&#10145;"
                              [Invoke (vote_closure "a1" 1)]];
               localStorage := {[ voter_key := "v-123" ]};
               trace := [] |} in
  ∃ pre post,
    trace (tryvote "a1" 2 (Rejected "offline")
             (Parsed (Json (Some 200) None None None)) st).2
    = trace st ++ pre
        ++ [Alert "Invalid vote!";
            Fetch "/vote/" [("site_id", "a1"); ("voter_id", "v-123");
                            ("vote", "2")]]
        ++ post.
Proof.
  apply (invalid_vote_is_sent "a1" 2 (Rejected "offline")
           (Parsed (Json (Some 200) None None None))).
  - right. lia.
  - reflexivity.
Defined.

(** ** The identity is issued once *)

Lemma session_stored (casts : list cast) (st : state) (v : string) :
  stored_identity st = Some v →
  requests (trace (session casts st))
  = requests (trace st)
      ++ ((λ c, ("/vote/", vote_form (cast_site c) v (cast_vote c))) <$> casts)
  ∧ stored_identity (session casts st) = Some v.
Proof.
  revert st. induction casts as [| [site vote rid rvote] casts IH];
    intros st Hs; cbn [session fmap list_fmap].
  { by rewrite app_nil_r. }
  cbn [cast_site cast_vote cast_rid cast_rvote].
  pose proof (get_id_cached rid (after [call_log site vote] st) v Hs) as Hget.
  destruct (tryvote_sends site vote rid rvote st _ v Hget
              (stored_identity_nonempty _ _ Hs)) as (post & Htr & Hpost & Hls).
  set (st1 := (tryvote site vote rid rvote st).2) in *.
  assert (Hs1 : stored_identity st1 = Some v).
  { unfold stored_identity in *. by rewrite Hls. }
  destruct (IH st1 Hs1) as [-> ->]. split; [| done].
  rewrite Htr. autorewrite with state.
  rewrite !requests_app, requests_invalid_notice, Hpost. cbn.
  by rewrite <- !app_assoc.
Qed.

(** C6.  A cast made while no identity is stored sends exactly one request
    to [/id/], then the [/vote/] request with the identity of the reply,
    and stores that identity; the casts that follow, on whatever site,
    send one [/vote/] request each with that same identity and nothing to
    [/id/]. *)
Theorem identity_issued_once (site_id : string) (vote : Z) (j : json)
    (rvote : reply) (casts : list cast) (st : state) (v : string) :
  stored_identity st = None →
  code j = Some 200 →
  voter_id j = Some v →
  v ≠ EmptyString →
  let st1 := (tryvote site_id vote (Parsed j) rvote st).2 in
  let st2 := session casts st1 in
  requests (trace st1)
  = requests (trace st)
      ++ [("/id/", []); ("/vote/", vote_form site_id v vote)] ∧
  localStorage st1 !! voter_key = Some v ∧
  requests (trace st2)
  = requests (trace st1)
      ++ ((λ c, ("/vote/", vote_form (cast_site c) v (cast_vote c))) <$> casts) ∧
  localStorage st2 !! voter_key = Some v.
Proof.
  intros Hnone Hj Hv Hne st1 st2.
  assert (Hid : identity_for (Parsed j) (after [call_log site_id vote] st)
                = Some v).
  { unfold identity_for. rewrite stored_identity_after, Hnone.
    unfold code_is_200. rewrite bool_decide_eq_true_2, Hv by done.
    by destruct v. }
  destruct (get_id_identity _ _ v Hid)
    as (st0 & pre & Hget & _ & Htr0 & Hreq & _ & Hs0).
  rewrite stored_identity_after, Hnone in Hreq.
  destruct (tryvote_sends site_id vote (Parsed j) rvote st st0 v Hget Hne)
    as (post & Htr & Hpost & Hls).
  fold st1 in Htr, Hls.
  assert (Hs1 : stored_identity st1 = Some v).
  { unfold stored_identity in *. by rewrite Hls. }
  destruct (session_stored casts st1 v Hs1) as [Hreq2 Hs2].
  fold st2 in Hreq2, Hs2.
  repeat split; auto using stored_identity_lookup.
  rewrite Htr, Htr0. autorewrite with state.
  rewrite !requests_app, requests_invalid_notice, Hpost, Hreq. cbn.
  by rewrite <- !app_assoc.
Qed.

Lemma identity_issued_once_witness :
  let st := {| document := [Element "div" "vote-a1" "unvoted" "&#10145;"
                              [Invoke (vote_closure "a1" 1)];
                            Element "div" "vote-b2" "unvoted" "&#10145;"
                              [Invoke (vote_closure "b2" 1)]];
               localStorage := ∅;
               trace := [] |} in
  let ok := Parsed (Json (Some 200) None None None) in
  let issued := Json (Some 200) None (Some "v-123") None in
  let casts := [Cast "b2" 1 (Parsed issued) ok;
                Cast "a1" 0 (Rejected "offline") ok] in
  let st1 := (tryvote "a1" 1 (Parsed issued) ok st).2 in
  let st2 := session casts st1 in
  requests (trace st1)
  = requests (trace st)
      ++ [("/id/", []); ("/vote/", vote_form "a1" "v-123" 1)] ∧
  localStorage st1 !! voter_key = Some "v-123" ∧
  requests (trace st2)
  = requests (trace st1)
      ++ [("/vote/", vote_form "b2" "v-123" 1);
          ("/vote/", vote_form "a1" "v-123" 0)] ∧
  localStorage st2 !! voter_key = Some "v-123".
Proof.
  apply (identity_issued_once "a1" 1 (Json (Some 200) None (Some "v-123") None)
           (Parsed (Json (Some 200) None None None))
           [Cast "b2" 1 (Parsed (Json (Some 200) None (Some "v-123") None))
              (Parsed (Json (Some 200) None None None));
            Cast "a1" 0 (Rejected "offline")
              (Parsed (Json (Some 200) None None None))]).
  - reflexivity.
  - reflexivity.
  - reflexivity.
  - discriminate.
Defined.

(** ** Hydration *)

(** Hydration only logs and sends to [/votes/], and never writes to local
    storage, whatever the page and the reply and however it ends. *)
Lemma keeps_populate_votes (P : event → Prop) (r : reply) :
  (∀ msg, P (Log msg)) → (∀ body, P (Fetch "/votes/" body)) →
  keeps P (populate_votes r).
Proof.
  intros Hlog Hfetch. unfold populate_votes.
  apply keeps_bind; [apply keeps_querySelectorAll |]. intros divs.
  apply keeps_bind.
  { apply keeps_for_of_with. intros ids elem.
    destruct (vote_capable (eid elem)); [| apply keeps_ret].
    apply keeps_bind; [by apply keeps_emit |]. intros _. apply keeps_ret. }
  intros ids. apply keeps_bind.
  { apply keeps_for_of. intros site_id.
    apply keeps_bind; [apply keeps_getElementById |]. intros elem.
    repeat (apply keeps_bind; [apply keeps_update_element |]; intros _).
    apply keeps_update_element. }
  intros _. apply keeps_bind; [apply keeps_getItem |]. intros voter.
  apply keeps_bind; [by apply keeps_emit |]. intros _.
  apply keeps_try_catch.
  - apply keeps_bind; [by apply keeps_fetch_json |]. intros j.
    apply keeps_bind; [apply keeps_iterate |]. intros upvoted.
    apply keeps_bind; [| intros _; apply keeps_ret].
    apply keeps_for_of. intros site_id.
    apply keeps_bind; [apply keeps_getElementById |]. intros elem.
    apply keeps_bind; [apply keeps_update_element |]. intros _.
    apply keeps_update_element.
  - intros error. apply keeps_bind; [by apply keeps_emit |]. intros _.
    apply keeps_ret.
Qed.

(** The first loop collects the discovered ids and logs each. *)
Lemma discovery_loop (divs : list element) (acc : list string) (st : state) :
  for_of_with divs acc
    (λ ids elem,
       if vote_capable (eid elem) then
         let id := site_id_of (eid elem) in
         console_log ("pushing " +:+ id);;
         mret (ids ++ [id])
       else mret ids) st
  = (Normal (acc ++ (site_id_of <$>
                       filter (λ i, vote_capable i = true) (eid <$> divs))),
     after ((λ id, Log ("pushing " +:+ id)) <$>
              (site_id_of <$>
                 filter (λ i, vote_capable i = true) (eid <$> divs))) st).
Proof.
  revert acc st. induction divs as [| elem divs IH]; intros acc st.
  { cbn. by rewrite app_nil_r, after_nil. }
  cbn [for_of_with fmap list_fmap]. rewrite filter_cons.
  destruct (vote_capable (eid elem)) eqn:Hcap.
  - rewrite decide_True by done. js_unfold. cbn [fmap list_fmap].
    rewrite IH, after_after. by rewrite <- app_assoc.
  - rewrite decide_False by (by destruct (vote_capable (eid elem))).
    js_unfold. by rewrite IH.
Qed.

(** One turn of the second loop, for a site whose control is found. *)
Lemma initialise_step (site_id : string) (st : state) (i : nat) :
  find_element ("vote-" +:+ site_id) (document st) = Some i →
  (elem ← getElementById ("vote-" +:+ site_id);
   set_className elem "unvoted";;
   let closure := vote_closure site_id 1 in
   addEventListener elem (Invoke closure);;
   set_innerHTML elem "&#10145;") st
  = (Normal (), with_document (alter (initialise site_id) i (document st)) st).
Proof.
  intros Hi. unfold getElementById, set_className, addEventListener,
    set_innerHTML. js_unfold. rewrite Hi. cbn.
  unfold initialise. by rewrite !list_alter_alter_eq.
Qed.

Lemma eid_initialise (site_id : string) (e : element) :
  eid (initialise site_id e) = eid e.
Proof. done. Qed.

Lemma initialise_bound (site_id : string) (i : nat) (doc : list element) :
  find_element ("vote-" +:+ site_id) doc = Some i →
  Forall bound_to_upvote doc →
  Forall bound_to_upvote (alter (initialise site_id) i doc).
Proof.
  intros (e & He & Heid)%find_element_lookup Hdoc.
  apply Forall_alter; [done |]. intros e' He' Hb. simplify_eq.
  unfold bound_to_upvote, initialise in *. cbn.
  apply Forall_app. split; [done |]. constructor; [| done].
  by exists site_id.
Qed.

Lemma initialise_shows (site_id : string) (i : nat) (doc : list element) :
  find_element ("vote-" +:+ site_id) doc = Some i →
  shows_unvoted site_id (alter (initialise site_id) i doc).
Proof.
  intros Hi. pose proof Hi as (e & He & _)%find_element_lookup.
  exists i, (initialise site_id e).
  rewrite find_element_alter, list_lookup_alter_eq, He by done.
  repeat split; try done. cbn. by destruct (listeners e).
Qed.

Lemma initialise_stable (site_id other : string) (i : nat)
    (doc : list element) :
  shows_unvoted other doc →
  shows_unvoted other (alter (initialise site_id) i doc).
Proof.
  intros (k & e & Hk & He & Hc & Hl).
  destruct (decide (k = i)) as [-> | Hne].
  - exists i, (initialise site_id e).
    rewrite find_element_alter, list_lookup_alter_eq, He by done.
    repeat split; try done. cbn. by destruct (listeners e).
  - exists k, e. by rewrite find_element_alter, list_lookup_alter_ne.
Qed.

(** The second loop, when every id it goes through names a control. *)
Lemma initialise_loop (ids : list string) (st : state) :
  Forall (λ id, is_Some (find_element ("vote-" +:+ id) (document st))) ids →
  ∃ doc,
    for_of ids
      (λ site_id,
         elem ← getElementById ("vote-" +:+ site_id);
         set_className elem "unvoted";;
         let closure := vote_closure site_id 1 in
         addEventListener elem (Invoke closure);;
         set_innerHTML elem "&#10145;") st
    = (Normal (), with_document doc st) ∧
    (∀ id, find_element id doc = find_element id (document st)) ∧
    (Forall bound_to_upvote (document st) → Forall bound_to_upvote doc) ∧
    (∀ id, id ∈ ids ∨ shows_unvoted id (document st) → shows_unvoted id doc).
Proof.
  revert st. induction ids as [| x ids IH]; intros st Hres.
  { exists (document st). destruct st. repeat split; try done.
    intros id [[]%elem_of_nil | ?]; done. }
  apply Forall_cons in Hres as [[i Hi] Hres]. cbn [for_of].
  erewrite bind_normal by (by apply initialise_step).
  set (st1 := with_document (alter (initialise x) i (document st)) st).
  destruct (IH st1) as (doc & Hrun & Hfind & Hbound & Hshow).
  { eapply Forall_impl; [exact Hres |]. intros id Hid. cbn.
    by rewrite find_element_alter. }
  exists doc. split; [exact Hrun |]. split; [| split].
  - intros id. rewrite Hfind. cbn. by rewrite find_element_alter.
  - intros Hb. apply Hbound. cbn. by apply initialise_bound.
  - intros id Hid. apply Hshow. cbn.
    destruct Hid as [[-> | Hin]%elem_of_cons | Hold]; auto.
    + right. by apply initialise_shows.
    + right. by apply initialise_stable.
Qed.

Lemma try_catch_fetch {A : Type} (url : string) (body : list (string * string))
    (r : reply) (k : option json → js A) (handler : string → js A)
    (st : state) :
  try_catch (fetch_json url body r ≫= k) handler st
  = try_catch
      (match r with
       | Rejected error | Unparsable error => throw error
       | Parsed j => k (Some j)
       | NullBody => k None
       end) handler (after [Fetch url body] st).
Proof. unfold fetch_json. js_unfold. by destruct r. Qed.

Lemma to_string_getItem (st : state) :
  to_string match localStorage st !! voter_key with
            | Some s => Str s
            | None => Null
            end
  = match localStorage st !! voter_key with
    | Some s => s
    | None => "null"
    end.
Proof. by destruct (localStorage st !! voter_key). Qed.

(** Hydration of a page whose targets resolve: the controls of the
    discovered sites are initialised, then the request is sent; what comes
    after sends nothing more, and a failed request only logs the error. *)
Lemma populate_votes_resolved (r : reply) (st : state) :
  targets_resolve st →
  ∃ doc evs,
    (∀ id, find_element id doc = find_element id (document st)) ∧
    (Forall bound_to_upvote (document st) → Forall bound_to_upvote doc) ∧
    (∀ id, id ∈ discovered (document st) → shows_unvoted id doc) ∧
    Forall no_request evs ∧
    let sent := with_document doc
                  (after (evs ++ [Fetch "/votes/" (votes_form st)]) st) in
    quiet no_request sent (populate_votes r st).2 ∧
    (bulk_failed r →
     populate_votes r st
     = (Normal Null,
        after [Log ("Error getting vote data: " +:+ bulk_error r)] sent)).
Proof.
  intros Hres. unfold populate_votes.
  erewrite bind_normal by reflexivity.
  erewrite bind_normal by apply discovery_loop.
  cbn [app]. fold (discovered (document st)).
  set (logs := (λ id, Log ("pushing " +:+ id)) <$> discovered (document st)).
  destruct (initialise_loop (discovered (document st)) (after logs st))
    as (doc & Hrun & Hfind & Hbound & Hshow); [exact Hres |].
  erewrite bind_normal by exact Hrun.
  erewrite bind_normal by reflexivity.
  erewrite bind_normal by reflexivity.
  rewrite try_catch_fetch.
  set (voter := match localStorage (with_document doc (after logs st))
                        !! voter_key with
                | Some s => Str s
                | None => Null
                end).
  exists doc, (logs ++ [Log ("voter id is " +:+ to_string voter)]).
  assert (Hsent :
    after [Fetch "/votes/"
             [("site_ids", String.concat "," (discovered (document st)));
              ("voter_id", to_string voter)]]
      (after [Log ("voter id is " +:+ to_string voter)]
         (with_document doc (after logs st)))
    = with_document doc
        (after ((logs ++ [Log ("voter id is " +:+ to_string voter)])
                ++ [Fetch "/votes/" (votes_form st)]) st)).
  { unfold votes_form, after, with_document. cbn. subst voter. cbn.
    rewrite to_string_getItem. by rewrite <- !app_assoc. }
  rewrite Hsent. clear Hsent.
  split; [exact Hfind |]. split; [exact Hbound |].
  split; [by auto |]. split.
  { apply Forall_app. split; [| by repeat constructor].
    subst logs. apply Forall_fmap. by apply Forall_true. }
  split.
  - apply keeps_try_catch.
    + destruct r as [error | error | j |]; try apply keeps_throw.
      all: apply keeps_bind; [apply keeps_iterate |]; intros upvoted.
      all: apply keeps_bind; [| intros _; apply keeps_ret].
      all: apply keeps_for_of; intros site_id.
      all: apply keeps_bind; [apply keeps_getElementById |]; intros elem.
      all: apply keeps_bind; [apply keeps_update_element |]; intros _.
      all: apply keeps_update_element.
    + intros error. apply keeps_bind; [by apply keeps_emit |]. intros _.
      apply keeps_ret.
  - intros Hr. destruct r as [error | error | j |]; try done.
    cbn in Hr. cbn [mbind option_bind]. by rewrite Hr.
Qed.

Lemma requests_no_request (evs : list event) :
  Forall no_request evs → requests evs = [].
Proof.
  induction 1 as [| e evs He _ IH]; [done |].
  unfold requests in *. cbn. rewrite IH. by destruct e.
Qed.

(** When some discovered id names no element, the second loop throws on
    it: hydration ends there and no request is sent. *)
Lemma initialise_loop_throws (ids : list string) (st : state) :
  Exists (λ id, find_element ("vote-" +:+ id) (document st) = None) ids →
  ∃ st',
    for_of ids
      (λ site_id,
         elem ← getElementById ("vote-" +:+ site_id);
         set_className elem "unvoted";;
         let closure := vote_closure site_id 1 in
         addEventListener elem (Invoke closure);;
         set_innerHTML elem "&#10145;") st
    = (Throw type_error, st') ∧
    trace st' = trace st.
Proof.
  revert st. induction ids as [| x ids IH]; intros st Hex;
    [by apply Exists_nil in Hex |].
  cbn [for_of].
  destruct (find_element ("vote-" +:+ x) (document st)) as [i |] eqn:Hi.
  - apply Exists_cons in Hex as [Hx | Hex]; [congruence |].
    erewrite bind_normal by (by apply initialise_step).
    destruct (IH (with_document (alter (initialise x) i (document st)) st))
      as (st' & Hrun & Htr).
    { eapply Exists_impl; [exact Hex |]. intros id Hid. cbn.
      by rewrite find_element_alter. }
    by exists st'.
  - exists st. split; [| done].
    unfold getElementById, set_className. js_unfold. by rewrite Hi.
Qed.

Lemma unresolved_target_stops_hydration (r : reply) (st : state) :
  ¬ targets_resolve st →
  (populate_votes r st).1 = Throw type_error ∧
  requests (trace (populate_votes r st).2) = requests (trace st).
Proof.
  intros Hres. unfold populate_votes.
  erewrite bind_normal by reflexivity.
  erewrite bind_normal by apply discovery_loop.
  cbn [app]. fold (discovered (document st)).
  set (logs := (λ id, Log ("pushing " +:+ id)) <$> discovered (document st)).
  destruct (initialise_loop_throws (discovered (document st)) (after logs st))
    as (st' & Hrun & Htr).
  { apply not_Forall_Exists in Hres; [| apply _].
    eapply Exists_impl; [exact Hres |]. intros id Hid. cbn in *.
    by destruct (find_element _ (document st)); [destruct Hid |]. }
  erewrite bind_throw by exact Hrun. cbn. split; [done |].
  rewrite Htr. cbn. rewrite requests_app, (requests_no_request logs).
  - by rewrite app_nil_r.
  - subst logs. apply Forall_fmap. by apply Forall_true.
Qed.

(** On a page rendered as the script expects, every target resolves. *)
Lemma conventional_resolves (st : state) :
  conventional st → targets_resolve st.
Proof.
  unfold conventional, targets_resolve, discovered. intros Hconv.
  apply Forall_fmap, Forall_forall. intros id Hid. cbn.
  apply list_elem_of_filter in Hid as [Hcap Hid].
  apply list_elem_of_fmap in Hid as (e & -> & He).
  apply list_elem_of_filter in He as [Hdiv He].
  rewrite Forall_forall in Hconv.
  destruct (Hconv e He Hdiv Hcap) as (site_id & Heid & Hfree).
  rewrite Heid, site_id_of_vote, (proj2 (before_hyphen_fixed site_id) Hfree).
  unfold find_element.
  destruct (list_find_elem_of (λ e', eid e' = "vote-" +:+ site_id)
              (document st) e He Heid) as [[i e'] ->].
  by eexists.
Qed.

Lemma pristine_bound (st : state) :
  pristine st → Forall bound_to_upvote (document st).
Proof.
  intros Hp. eapply Forall_impl; [exact Hp |].
  intros e He. unfold bound_to_upvote. by rewrite He.
Qed.

(** The calls of a control that is looked up as [site_id] and whose
    listeners all request vote 1. *)
Lemma bound_to_upvote_calls (site_id : string) (e : element) :
  eid e = "vote-" +:+ site_id →
  bound_to_upvote e →
  listeners e ≠ [] →
  click_calls e ≠ [] ∧ ∀ call, call ∈ click_calls e → call = (site_id, 1).
Proof.
  unfold bound_to_upvote, click_calls. intros Heid Hb Hne.
  assert (Hall : Forall (λ l, l = Invoke (vote_closure site_id 1)) (listeners e)).
  { eapply Forall_impl; [exact Hb |]. intros l (s & -> & Hs). cbn.
    rewrite Heid in Hs. by apply (inj (String.append "vote-")) in Hs as ->. }
  clear Hb. split.
  - destruct (listeners e) as [| l ls]; [done |].
    by apply Forall_cons in Hall as [-> _].
  - clear Hne. induction Hall as [| l ls -> _ IH]; intros call; cbn.
    + by intros ?%elem_of_nil.
    + intros [-> | Hin]%elem_of_cons; auto.
Qed.

(** ** Hydration when the bulk request fails *)

(** C7.  When the bulk request fails (it is rejected, its body does not
    parse, or the body has no [site_ids]) on a freshly loaded page whose
    targets resolve, [populate_votes] returns, and every discovered site has
    a control that shows [unvoted] and whose activation calls
    [tryvote(site_id, 1)] and nothing else. *)
Theorem failed_fetch_leaves_unvoted (r : reply) (st : state) :
  bulk_failed r →
  targets_resolve st →
  pristine st →
  (populate_votes r st).1 = Normal Null ∧
  ∀ site_id, site_id ∈ discovered (document st) →
    ∃ e, control site_id (populate_votes r st).2 = Some e ∧
         className e = "unvoted" ∧
         click_calls e ≠ [] ∧
         ∀ call, call ∈ click_calls e → call = (site_id, 1).
Proof.
  intros Hr Hres Hp.
  destruct (populate_votes_resolved r st Hres)
    as (doc & evs & _ & Hbound & Hshow & _ & _ & Hrun).
  rewrite (Hrun Hr). split; [done |]. intros site_id Hin.
  destruct (Hshow site_id Hin) as (i & e & Hi & He & Hc & Hl).
  exists e. split; [apply control_lookup; by exists i |]. split; [done |].
  pose proof Hi as (e' & He' & Heid)%find_element_lookup. simplify_eq.
  apply bound_to_upvote_calls; try done.
  eapply Forall_lookup_1; [| exact He]. by apply Hbound, pristine_bound.
Qed.

Lemma failed_fetch_leaves_unvoted_witness :
  let st := {| document := [Element "div" "vote-a1" "" "" [];
                            Element "p" "intro" "" "" [];
                            Element "div" "vote-b2" "" "" []];
               localStorage := ∅;
               trace := [] |} in
  let out := populate_votes (Rejected "offline") st in
  out.1 = Normal Null ∧
  ∀ site_id, site_id ∈ ["a1"; "b2"] →
    ∃ e, control site_id out.2 = Some e ∧
         className e = "unvoted" ∧
         click_calls e ≠ [] ∧
         ∀ call, call ∈ click_calls e → call = (site_id, 1).
Proof.
  intros st out.
  apply (failed_fetch_leaves_unvoted (Rejected "offline") st).
  - exact I.
  - unfold targets_resolve. cbn. repeat constructor; by eexists.
  - unfold pristine. cbn. by repeat constructor.
Defined.

(** ** The bulk request *)

(** The one request hydration sends when the targets resolve. *)
Lemma populate_votes_requests (r : reply) (st : state) :
  targets_resolve st →
  requests (trace (populate_votes r st).2)
  = requests (trace st) ++ [("/votes/", votes_form st)].
Proof.
  intros Hres.
  destruct (populate_votes_resolved r st Hres)
    as (doc & evs & _ & _ & _ & Hevs & [_ (evs' & -> & Hevs')] & _).
  cbn. rewrite !requests_app, (requests_no_request evs),
    (requests_no_request evs') by done.
  by rewrite app_nil_r.
Qed.

Lemma discovered_count (site_id : string) (doc : list element) :
  length (filter (λ id, id = site_id) (discovered doc))
  = length (filter (λ e, tagName e = "div" ∧ vote_capable (eid e) = true ∧
                         site_id_of (eid e) = site_id) doc).
Proof.
  unfold discovered. induction doc as [| e doc IH]; [done |].
  rewrite !filter_cons.
  destruct (decide (tagName e = "div")) as [Hdiv | Hdiv].
  - cbn [fmap list_fmap]. rewrite filter_cons.
    destruct (decide (vote_capable (eid e) = true)) as [Hcap | Hcap].
    + cbn [fmap list_fmap]. rewrite filter_cons.
      destruct (decide (site_id_of (eid e) = site_id)) as [Hid | Hid].
      * rewrite decide_True by done. cbn. by rewrite IH.
      * rewrite decide_False by tauto. done.
    + rewrite decide_False by tauto. done.
  - rewrite decide_False by tauto. done.
Qed.

(** C8, as the script has it.  The ids are not deduplicated: the
    [site_ids] field of the one request sent to [/votes/] joins the site ids
    of the vote-capable [div] elements in document order, so a site id
    occurs in it once for every such element that carries it. *)
Theorem bulk_request_lists_every_element (r : reply) (st : state)
    (site_id : string) :
  targets_resolve st →
  requests (trace (populate_votes r st).2)
  = requests (trace st) ++ [("/votes/", votes_form st)] ∧
  votes_form st !! 0%nat
  = Some ("site_ids", String.concat "," (discovered (document st))) ∧
  length (filter (λ id, id = site_id) (discovered (document st)))
  = length (filter (λ e, tagName e = "div" ∧ vote_capable (eid e) = true ∧
                         site_id_of (eid e) = site_id) (document st)).
Proof.
  intros Hres. split; [by apply populate_votes_requests |].
  split; [done | apply discovered_count].
Qed.

Lemma bulk_request_lists_every_element_witness :
  let st := {| document := [Element "div" "vote-a" "" "" [];
                            Element "div" "vote-b" "" "" [];
                            Element "div" "vote-a" "" "" []];
               localStorage := ∅;
               trace := [] |} in
  let r := Parsed (Json (Some 200) None None (Some [])) in
  requests (trace (populate_votes r st).2)
  = requests (trace st) ++ [("/votes/", votes_form st)] ∧
  votes_form st !! 0%nat = Some ("site_ids", "a,b,a") ∧
  length (filter (λ id, id = "a") (discovered (document st)))
  = length (filter (λ e, tagName e = "div" ∧ vote_capable (eid e) = true ∧
                         site_id_of (eid e) = "a") (document st)).
Proof.
  intros st r. apply (bulk_request_lists_every_element r st "a").
  unfold targets_resolve. cbn. repeat constructor; by eexists.
Defined.

(** The claim as stated fails: two elements for the same site give a list
    with that site twice. *)
Lemma duplicate_ids_are_sent :
  let st := {| document := [Element "div" "vote-a" "" "" [];
                            Element "div" "vote-a" "" "" []];
               localStorage := ∅;
               trace := [] |} in
  let r := Parsed (Json (Some 200) None None (Some [])) in
  requests (trace (populate_votes r st).2)
  = [("/votes/", [("site_ids", "a,a"); ("voter_id", "null")])] ∧
  discovered (document st) = ["a"; "a"] ∧
  ¬ NoDup (discovered (document st)).
Proof.
  cbn zeta. split; [reflexivity |]. split; [reflexivity |].
  intros Hnd. apply NoDup_cons in Hnd as [Hnotin _].
  apply Hnotin. apply list_elem_of_here.
Qed.

(** ** Hydration and the identity store *)

(** C9.  Whatever the page and the reply, and however it ends, hydration
    leaves local storage as it was and sends nothing to [/id/]; with no
    identity stored, a page whose targets resolve still gets its one request
    to [/votes/], with [null] for the voter. *)
Theorem hydration_keeps_identity_store (r : reply) (st : state) :
  let st' := (populate_votes r st).2 in
  localStorage st' = localStorage st ∧
  (∃ evs, trace st' = trace st ++ evs ∧ Forall (not_to "/id/") evs) ∧
  (targets_resolve st →
   localStorage st !! voter_key = None →
   requests (trace st')
   = requests (trace st)
       ++ [("/votes/",
            [("site_ids", String.concat "," (discovered (document st)));
             ("voter_id", "null")])]).
Proof.
  intros st'.
  destruct (keeps_populate_votes (not_to "/id/") r) with (st := st)
    as [Hls Htr]; [done | done |].
  split; [exact Hls |]. split; [exact Htr |].
  intros Hres Hnone. subst st'. rewrite populate_votes_requests by done.
  unfold votes_form. by rewrite Hnone.
Qed.

Lemma hydration_keeps_identity_store_witness :
  let st := {| document := [Element "div" "vote-a1" "" "" [];
                            Element "div" "vote-b2" "" "" []];
               localStorage := ∅;
               trace := [] |} in
  let r := Parsed (Json (Some 200) None None (Some ["b2"])) in
  let st' := (populate_votes r st).2 in
  localStorage st' = localStorage st ∧
  (∃ evs, trace st' = trace st ++ evs ∧ Forall (not_to "/id/") evs) ∧
  requests (trace st')
  = requests (trace st)
      ++ [("/votes/", [("site_ids", "a1,b2"); ("voter_id", "null")])].
Proof.
  intros st r st'.
  destruct (hydration_keeps_identity_store r st) as (Hls & Htr & Hreq).
  split; [exact Hls |]. split; [exact Htr |]. apply Hreq.
  - unfold targets_resolve. cbn. repeat constructor; by eexists.
  - reflexivity.
Defined.

(** ** The site id of an element *)

Lemma discovered_elem (doc : list element) (e : element) :
  e ∈ doc → tagName e = "div" → vote_capable (eid e) = true →
  site_id_of (eid e) ∈ discovered doc.
Proof.
  intros He Hdiv Hcap. unfold discovered.
  apply list_elem_of_fmap_2, list_elem_of_filter. split; [done |].
  apply list_elem_of_fmap_2, list_elem_of_filter. by split.
Qed.

(** The id pushed for [vote-my-site] is [my]. *)
Example site_id_of_hyphenated : site_id_of "vote-my-site" = "my".
Proof. reflexivity. Qed.

(** ** The scenario of a first visit *)

(** A page with the sites [a1] and [b2], no stored identity, and a server
    that knows an earlier vote for [b2]. *)
Example first_visit :
  let page := {| document := [Element "div" "vote-a1" "" "" [];
                              Element "div" "vote-b2" "" "" []];
                 localStorage := ∅;
                 trace := [] |} in
  let hydrated :=
    (populate_votes (Parsed (Json (Some 200) None None (Some ["b2"]))) page).2 in
  let voted :=
    (tryvote "a1" 1 (Parsed (Json (Some 200) None (Some "v-123") None))
       (Parsed (Json (Some 200) None None None)) hydrated).2 in
  className <$> control "a1" hydrated = Some "unvoted" ∧
  className <$> control "b2" hydrated = Some "upvoted" ∧
  className <$> control "a1" voted = Some "upvoted" ∧
  localStorage voted !! voter_key = Some "v-123" ∧
  requests (trace voted)
  = [("/votes/", [("site_ids", "a1,b2"); ("voter_id", "null")]);
     ("/id/", []);
     ("/vote/", [("site_id", "a1"); ("voter_id", "v-123"); ("vote", "1")])] ∧
  click_calls <$> control "a1" voted = Some [("a1", 1); ("a1", 0)] ∧
  click_calls <$> control "b2" voted = Some [("b2", 1); ("b2", 0)].
Proof. cbn zeta. repeat split; reflexivity. Qed.

(** * Further properties of the script *)

(** ** The identity cache *)

(** X1.  [get_id(false)] with a non-empty identity in store returns it and
    does nothing else: no request, no notice, no write, whatever the server
    would have answered. *)
Theorem stored_identity_is_returned (r : reply) (st : state) (v : string) :
  localStorage st !! voter_key = Some v →
  v ≠ EmptyString →
  get_id false r st = (Normal (Str v), st).
Proof.
  intros Hv Hne. apply get_id_cached. unfold stored_identity. rewrite Hv.
  by destruct v.
Qed.

Lemma stored_identity_is_returned_witness :
  let st := {| document := []; localStorage := {[ voter_key := "v-123" ]};
               trace := [Log "earlier"] |} in
  get_id false (Rejected "offline") st = (Normal (Str "v-123"), st).
Proof.
  intros st. apply (stored_identity_is_returned (Rejected "offline") st "v-123").
  - reflexivity.
  - discriminate.
Defined.

(** X2.  [get_id(true)] ignores the stored identity: it sends the request
    to [/id/] and, on a confirmed reply with a [voter_id], overwrites the
    stored identity with the new one and returns it, without any notice. *)
Theorem forced_issuance_replaces_identity (j : json) (st : state)
    (old new : string) :
  localStorage st !! voter_key = Some old →
  code j = Some 200 →
  voter_id j = Some new →
  let out := get_id true (Parsed j) st in
  out.1 = Normal (Str new) ∧
  localStorage out.2 !! voter_key = Some new ∧
  (∀ key, key ≠ voter_key → localStorage out.2 !! key = localStorage st !! key) ∧
  trace out.2 = trace st ++ [Fetch "/id/" []] ∧
  document out.2 = document st.
Proof.
  intros Hold Hj Hnew out. subst out.
  rewrite (get_id_issued true j st) by auto. rewrite Hnew. cbn.
  split; [done |]. split; [by rewrite lookup_insert_eq |].
  split; [| done]. intros key Hkey. by rewrite lookup_insert_ne.
Qed.

Lemma forced_issuance_replaces_identity_witness :
  let st := {| document := []; localStorage := {[ voter_key := "v-old" ]};
               trace := [] |} in
  let out := get_id true (Parsed (Json (Some 200) None (Some "v-new") None)) st in
  out.1 = Normal (Str "v-new") ∧
  localStorage out.2 !! voter_key = Some "v-new" ∧
  (∀ key, key ≠ voter_key → localStorage out.2 !! key = localStorage st !! key) ∧
  trace out.2 = trace st ++ [Fetch "/id/" []] ∧
  document out.2 = document st.
Proof.
  intros st.
  apply (forced_issuance_replaces_identity
           (Json (Some 200) None (Some "v-new") None) st "v-old" "v-new");
    reflexivity.
Defined.

(** ** Every path of a cast *)

Lemma identity_for_after (evs : list event) (rid : reply) (st : state) :
  identity_for rid (after evs st) = identity_for rid st.
Proof. done. Qed.

(** A cast whose issuance is confirmed without a usable [voter_id]: the
    field is missing ([null.length] throws on [undefined]) or empty (the
    cast returns). *)
Lemma tryvote_unusable_identity (site_id : string) (vote : Z) (j : json)
    (rvote : reply) (st : state) :
  stored_identity st = None →
  code j = Some 200 →
  voter_id j = None ∨ voter_id j = Some EmptyString →
  tryvote site_id vote (Parsed j) rvote st
  = (match voter_id j with
     | None => Throw type_error
     | Some _ => Normal Undefined
     end,
     with_localStorage
       (<[voter_key := to_string (of_field (voter_id j))]> (localStorage st))
       (after [call_log site_id vote; Fetch "/id/" []] st)).
Proof.
  intros Hnone Hj Hv. unfold tryvote. fold (call_log site_id vote).
  erewrite bind_normal by reflexivity.
  erewrite bind_normal by (by apply get_id_issued; auto).
  rewrite after_after. by destruct Hv as [-> | ->].
Qed.

(** The requests of a cast, on every path. *)
Lemma tryvote_requests (site_id : string) (vote : Z) (rid rvote : reply)
    (st : state) :
  requests (trace (tryvote site_id vote rid rvote st).2)
  = requests (trace st) ++ cast_requests site_id vote rid st.
Proof.
  unfold cast_requests. destruct (identity_for rid st) as [v |] eqn:Hid.
  - destruct (get_id_identity rid (after [call_log site_id vote] st) v Hid)
      as (st1 & pre & Hget & _ & Htr & Hreq & _).
    destruct (tryvote_sends site_id vote rid rvote st st1 v Hget
                (identity_for_nonempty _ _ _ Hid)) as (post & -> & Hpost & _).
    rewrite Htr, stored_identity_after in *. autorewrite with state.
    rewrite !requests_app, requests_invalid_notice, Hpost, Hreq. cbn.
    by rewrite app_nil_r, <- !app_assoc.
  - unfold identity_for in Hid.
    destruct (stored_identity st) eqn:Hs; [done |].
    assert (Hfail : failed rid →
              requests (trace (tryvote site_id vote rid rvote st).2)
              = requests (trace st) ++ [("/id/", [])] ++ []).
    { intros Hr. unfold tryvote. fold (call_log site_id vote).
      erewrite bind_normal by reflexivity.
      erewrite bind_normal by (by apply get_id_failed; auto).
      erewrite bind_throw by reflexivity.
      cbn. events. by rewrite requests_alerts. }
    destruct rid as [e | e | j |]; try (by apply Hfail).
    + destruct (code_is_200 j) eqn:Hj.
      * apply bool_decide_eq_true_1 in Hj.
        destruct (voter_id j) as [[| c v] |] eqn:Hv; [| done |];
          rewrite tryvote_unusable_identity by auto; cbn; by events.
      * apply bool_decide_eq_false_1 in Hj. by apply Hfail.
    + unfold tryvote. fold (call_log site_id vote).
      erewrite bind_normal by reflexivity.
      erewrite bind_throw by (by apply get_id_null; auto).
      cbn. by events.
Qed.

(** X3.  However a call of [tryvote] goes, it sends at most two requests and
    never the same one twice: one to [/id/] exactly when no identity is
    stored, followed by one to [/vote/] exactly when it has a non-empty
    identity to vote with (stored, or just issued). *)
Theorem cast_sends_what_it_needs (site_id : string) (vote : Z)
    (rid rvote : reply) (st : state) :
  requests (trace (tryvote site_id vote rid rvote st).2)
  = requests (trace st) ++ cast_requests site_id vote rid st ∧
  (length (cast_requests site_id vote rid st) ≤ 2)%nat ∧
  NoDup (fst <$> cast_requests site_id vote rid st).
Proof.
  split; [apply tryvote_requests |]. unfold cast_requests.
  destruct (stored_identity st), (identity_for rid st); cbn;
    (split; [lia |]); by apply (bool_decide_unpack _).
Qed.

(** X4.  When the server confirms an issuance but the reply has no
    [voter_id], the cast ends on a [TypeError] with nothing shown to the
    user and no vote sent, and the text [undefined] is left in store: every
    later cast takes it for the identity and votes as [undefined], without
    asking [/id/] again. *)
Theorem missing_voter_id_is_stored_as_undefined (site_id : string) (vote : Z)
    (j : json) (rvote : reply) (next : cast) (st : state) :
  stored_identity st = None →
  code j = Some 200 →
  voter_id j = None →
  let out := tryvote site_id vote (Parsed j) rvote st in
  out.1 = Throw type_error ∧
  localStorage out.2 !! voter_key = Some "undefined" ∧
  requests (trace out.2) = requests (trace st) ++ [("/id/", [])] ∧
  notices (trace out.2) = notices (trace st) ∧
  document out.2 = document st ∧
  requests (trace (session [next] out.2))
  = requests (trace out.2)
      ++ [("/vote/", vote_form (cast_site next) "undefined" (cast_vote next))].
Proof.
  intros Hnone Hj Hv out.
  assert (Hout : out = (Throw type_error,
             with_localStorage (<[voter_key := "undefined"]> (localStorage st))
               (after [call_log site_id vote; Fetch "/id/" []] st))).
  { subst out. rewrite tryvote_unusable_identity by auto. by rewrite Hv. }
  rewrite Hout. cbn [fst snd session].
  split; [done |]. split; [cbn; by rewrite lookup_insert_eq |].
  split; [cbn; by events |].
  split; [cbn; by events |].
  split; [done |].
  rewrite tryvote_requests. unfold cast_requests, identity_for, stored_identity.
  cbn. by rewrite lookup_insert_eq.
Qed.

Lemma missing_voter_id_is_stored_as_undefined_witness :
  let st := {| document := [Element "div" "vote-a1" "unvoted" "" []];
               localStorage := ∅; trace := [] |} in
  let ok := Parsed (Json (Some 200) None None None) in
  let next := Cast "a1" 1 (Rejected "offline") ok in
  let out := tryvote "a1" 1 ok ok st in
  out.1 = Throw type_error ∧
  localStorage out.2 !! voter_key = Some "undefined" ∧
  requests (trace out.2) = requests (trace st) ++ [("/id/", [])] ∧
  notices (trace out.2) = notices (trace st) ∧
  document out.2 = document st ∧
  requests (trace (session [next] out.2))
  = requests (trace out.2) ++ [("/vote/", vote_form "a1" "undefined" 1)].
Proof.
  intros st ok next.
  apply (missing_voter_id_is_stored_as_undefined "a1" 1
           (Json (Some 200) None None None) ok next st); reflexivity.
Defined.

(** X5.  When the server confirms an issuance with an empty [voter_id], the
    cast returns without a word: no notice, no vote, the empty string in
    store.  The empty string does not count as an identity, so the next cast
    asks [/id/] again. *)
Theorem empty_voter_id_drops_the_cast (site_id : string) (vote : Z)
    (j : json) (rvote : reply) (next : cast) (st : state) :
  stored_identity st = None →
  code j = Some 200 →
  voter_id j = Some EmptyString →
  let out := tryvote site_id vote (Parsed j) rvote st in
  out.1 = Normal Undefined ∧
  localStorage out.2 !! voter_key = Some EmptyString ∧
  requests (trace out.2) = requests (trace st) ++ [("/id/", [])] ∧
  notices (trace out.2) = notices (trace st) ∧
  document out.2 = document st ∧
  ∃ rest, requests (trace (session [next] out.2))
          = requests (trace out.2) ++ ("/id/", []) :: rest.
Proof.
  intros Hnone Hj Hv out.
  assert (Hout : out = (Normal Undefined,
             with_localStorage (<[voter_key := EmptyString]> (localStorage st))
               (after [call_log site_id vote; Fetch "/id/" []] st))).
  { subst out. rewrite tryvote_unusable_identity by auto. by rewrite Hv. }
  rewrite Hout. cbn [fst snd session].
  split; [done |]. split; [cbn; by rewrite lookup_insert_eq |].
  split; [cbn; by events |].
  split; [cbn; by events |].
  split; [done |].
  rewrite tryvote_requests. unfold cast_requests at 1, stored_identity.
  cbn. rewrite lookup_insert_eq. by eexists.
Qed.

Lemma empty_voter_id_drops_the_cast_witness :
  let st := {| document := [Element "div" "vote-a1" "unvoted" "" []];
               localStorage := ∅; trace := [] |} in
  let empty := Parsed (Json (Some 200) None (Some EmptyString) None) in
  let ok := Parsed (Json (Some 200) None None None) in
  let next := Cast "a1" 1 (Rejected "offline") ok in
  let out := tryvote "a1" 1 empty ok st in
  out.1 = Normal Undefined ∧
  localStorage out.2 !! voter_key = Some EmptyString ∧
  requests (trace out.2) = requests (trace st) ++ [("/id/", [])] ∧
  notices (trace out.2) = notices (trace st) ∧
  document out.2 = document st ∧
  ∃ rest, requests (trace (session [next] out.2))
          = requests (trace out.2) ++ ("/id/", []) :: rest.
Proof.
  intros st empty ok next.
  apply (empty_voter_id_drops_the_cast "a1" 1
           (Json (Some 200) None (Some EmptyString) None) ok next st);
    reflexivity.
Defined.

(** ** Confirmed casts *)

(** X7.  A confirmed cast on a site that has no control on the page: the
    vote has been sent and accepted, then the assignment to the class of
    [null] throws.  Nothing on the page changes and nothing is shown. *)
Theorem confirmed_cast_without_control (site_id : string) (vote : Z)
    (rid : reply) (j : json) (st : state) (v : string) :
  identity_for rid st = Some v →
  code j = Some 200 →
  vote = 0 ∨ vote = 1 →
  find_element ("vote-" +:+ site_id) (document st) = None →
  let out := tryvote site_id vote rid (Parsed j) st in
  out.1 = Throw type_error ∧
  document out.2 = document st ∧
  notices (trace out.2) = notices (trace st) ∧
  ("/vote/", vote_form site_id v vote) ∈ requests (trace out.2).
Proof.
  intros Hid Hj Hvote Hnone out.
  destruct (get_id_identity rid (after [call_log site_id vote] st) v Hid)
    as (st1 & pre & Hget & Hdoc & Htr & _ & Hnot & _).
  autorewrite with state in Hdoc, Htr.
  assert (Hout : out = (Throw type_error,
                        after [Fetch "/vote/" (vote_form site_id v vote)] st1)).
  { subst out. unfold tryvote. fold (call_log site_id vote).
    erewrite bind_normal by reflexivity.
    erewrite bind_normal by exact Hget.
    pose proof (identity_for_nonempty _ _ _ Hid) as Hne.
    destruct v as [| c v]; [done |].
    unfold getElementById, set_className, addEventListener, update_element.
    js_unfold. cbn.
    rewrite (bool_decide_eq_false_2 (S _ = 0%nat)) by done.
    unfold code_is_200. rewrite bool_decide_eq_true_2 by done.
    destruct Hvote as [-> | ->]; cbn; autorewrite with state;
      by rewrite Hdoc, Hnone. }
  rewrite Hout. cbn [fst snd]. autorewrite with state.
  split; [done |]. split; [done |]. rewrite Htr. split.
  - events. rewrite Hnot. by events.
  - rewrite !requests_app. apply elem_of_app. right. apply list_elem_of_here.
Qed.

Lemma confirmed_cast_without_control_witness :
  let st := {| document := [Element "div" "vote-a1" "unvoted" "" []];
               localStorage := {[ voter_key := "v-123" ]};
               trace := [] |} in
  let out := tryvote "zz" 1 (Rejected "offline")
               (Parsed (Json (Some 200) None None None)) st in
  out.1 = Throw type_error ∧
  document out.2 = document st ∧
  notices (trace out.2) = notices (trace st) ∧
  ("/vote/", vote_form "zz" "v-123" 1) ∈ requests (trace out.2).
Proof.
  intros st.
  apply (confirmed_cast_without_control "zz" 1 (Rejected "offline")
           (Json (Some 200) None None None) st "v-123").
  - reflexivity.
  - reflexivity.
  - by right.
  - reflexivity.
Defined.

(** X8.  A vote out of range that the server confirms all the same changes
    nothing on the page: the call returns after the one notice
    [Invalid vote!], with the document as it was. *)
Theorem confirmed_invalid_vote_changes_nothing (site_id : string) (vote : Z)
    (rid : reply) (j : json) (st : state) (v : string) :
  identity_for rid st = Some v →
  code j = Some 200 →
  vote < 0 ∨ 1 < vote →
  let out := tryvote site_id vote rid (Parsed j) st in
  out.1 = Normal Undefined ∧
  document out.2 = document st ∧
  notices (trace out.2) = notices (trace st) ++ ["Invalid vote!"].
Proof.
  intros Hid Hj Hvote out.
  destruct (get_id_identity rid (after [call_log site_id vote] st) v Hid)
    as (st1 & pre & Hget & Hdoc & Htr & _ & Hnot & _).
  autorewrite with state in Hdoc, Htr.
  assert (Hout : out = (Normal Undefined,
                        after [Alert "Invalid vote!";
                               Fetch "/vote/" (vote_form site_id v vote)] st1)).
  { subst out. unfold tryvote. fold (call_log site_id vote).
    erewrite bind_normal by reflexivity.
    erewrite bind_normal by exact Hget.
    pose proof (identity_for_nonempty _ _ _ Hid) as Hne.
    destruct v as [| c v]; [done |]. js_unfold. cbn.
    rewrite (bool_decide_eq_false_2 (S _ = 0%nat)) by done.
    unfold code_is_200. rewrite bool_decide_eq_true_2 by done.
    replace ((vote <? 0) || (1 <? vote)) with true by (symmetry; lia).
    replace (vote =? 1) with false by (symmetry; lia).
    replace (vote =? 0) with false by (symmetry; lia).
    cbn. by rewrite after_after. }
  rewrite Hout. cbn [fst snd]. autorewrite with state.
  split; [done |]. split; [done |]. rewrite Htr. events.
  rewrite Hnot. by events.
Qed.

Lemma confirmed_invalid_vote_changes_nothing_witness :
  let st := {| document := [Element "div" "vote-a1" "unvoted" "" []];
               localStorage := {[ voter_key := "v-123" ]};
               trace := [] |} in
  let out := tryvote "a1" 2 (Rejected "offline")
               (Parsed (Json (Some 200) None None None)) st in
  out.1 = Normal Undefined ∧
  document out.2 = document st ∧
  notices (trace out.2) = notices (trace st) ++ ["Invalid vote!"].
Proof.
  intros st.
  apply (confirmed_invalid_vote_changes_nothing "a1" 2 (Rejected "offline")
           (Json (Some 200) None None None) st "v-123").
  - reflexivity.
  - reflexivity.
  - right. lia.
Defined.

(** ** Loops over controls *)

Lemma control_has_alter (site_id x : string) (f : element → element)
    (Q Q' : element → Prop) (i : nat) (doc : list element) :
  (∀ e, eid (f e) = eid e) →
  find_element ("vote-" +:+ x) doc = Some i →
  (x = site_id → ∀ e, Q e → Q' (f e)) →
  (x ≠ site_id → ∀ e, Q e → Q' e) →
  control_has site_id Q doc →
  control_has site_id Q' (alter f i doc).
Proof.
  intros Hf Hi Hsame Hother (k & e & Hk & He & HQ).
  destruct (decide (x = site_id)) as [-> | Hne].
  - simplify_eq. exists i, (f e).
    rewrite find_element_alter, list_lookup_alter_eq, He by done. auto.
  - exists k, e. rewrite find_element_alter by done.
    split; [done |]. split; [| auto].
    rewrite list_lookup_alter_ne; [done |]. intros ->.
    apply find_element_lookup in Hi as (e1 & He1 & Heid1).
    apply find_element_lookup in Hk as (e2 & He2 & Heid2).
    simplify_eq. rewrite Heid1 in Heid2.
    by apply (inj (String.append "vote-")) in Heid2.
Qed.

Section UpdateControls.

Variable upd : string → element → element.
Hypothesis upd_eid : ∀ x e, eid (upd x e) = eid e.

Lemma update_controls_find (ids : list string) (id : string)
    (doc : list element) :
  find_element id (update_controls upd ids doc) = find_element id doc.
Proof.
  revert doc. induction ids as [| x ids IH]; intros doc; [done |].
  cbn [update_controls]. rewrite IH.
  destruct (find_element ("vote-" +:+ x) doc); [| done].
  by rewrite find_element_alter.
Qed.

(** What holds of the control of a site keeps holding when the update for
    that site preserves it, and always when the site is not gone through. *)
Lemma update_controls_stable (ids : list string) (site_id : string)
    (Q : element → Prop) (doc : list element) :
  (site_id ∈ ids → ∀ e, Q e → Q (upd site_id e)) →
  control_has site_id Q doc →
  control_has site_id Q (update_controls upd ids doc).
Proof.
  revert doc. induction ids as [| x ids IH]; intros doc Hstable HQ; [done |].
  cbn [update_controls]. apply IH.
  { intros Hin. apply Hstable. by apply list_elem_of_further. }
  destruct (find_element ("vote-" +:+ x) doc) as [i |] eqn:Hi; [| done].
  eapply (control_has_alter site_id x _ Q Q); try done.
  intros ->. apply Hstable, list_elem_of_here.
Qed.

(** What the update establishes for a site that is gone through. *)
Lemma update_controls_reach (ids : list string) (site_id : string)
    (Q0 Q : element → Prop) (doc : list element) :
  site_id ∈ ids →
  (∀ e, Q0 e → Q (upd site_id e)) →
  (∀ e, Q e → Q (upd site_id e)) →
  control_has site_id Q0 doc →
  control_has site_id Q (update_controls upd ids doc).
Proof.
  revert doc. induction ids as [| x ids IH]; intros doc Hin Hnew Hstable HQ0;
    [by apply elem_of_nil in Hin |].
  cbn [update_controls].
  destruct (decide (x = site_id)) as [-> | Hne].
  - apply update_controls_stable; [done |].
    destruct HQ0 as (i & e & Hi & He & HQ0). rewrite Hi.
    eapply (control_has_alter site_id site_id _ Q0 Q); try done.
    by exists i, e.
  - apply elem_of_cons in Hin as [-> | Hin]; [done |].
    apply IH; try done.
    destruct (find_element ("vote-" +:+ x) doc) as [i |] eqn:Hi; [| done].
    by eapply (control_has_alter site_id x _ Q0 Q0).
Qed.

(** A loop whose turn updates the control it finds, on ids that all have
    one. *)
Lemma for_of_update_controls (body : string → js ()) (ids : list string)
    (st : state) :
  (∀ x st i,
     find_element ("vote-" +:+ x) (document st) = Some i →
     body x st
     = (Normal (), with_document (alter (upd x) i (document st)) st)) →
  Forall (λ id, is_Some (find_element ("vote-" +:+ id) (document st))) ids →
  for_of ids body st
  = (Normal (), with_document (update_controls upd ids (document st)) st).
Proof.
  intros Hbody. revert st. induction ids as [| x ids IH]; intros st Hres.
  { by destruct st. }
  apply Forall_cons in Hres as [[i Hi] Hres]. cbn [for_of update_controls].
  erewrite bind_normal by (by apply Hbody). rewrite Hi.
  rewrite IH; [done |].
  eapply Forall_impl; [exact Hres |]. intros id Hid. cbn.
  by rewrite find_element_alter.
Qed.

End UpdateControls.

(** One turn of the third loop. *)
Lemma mark_upvoted_step (site_id : string) (st : state) :
  (elem ← getElementById ("vote-" +:+ site_id);
   set_className elem "upvoted";;
   let closure := vote_closure site_id 0 in
   addEventListener elem (Invoke closure)) st
  = match find_element ("vote-" +:+ site_id) (document st) with
    | Some i =>
        (Normal (),
         with_document (alter (mark_upvoted site_id) i (document st)) st)
    | None => (Throw type_error, st)
    end.
Proof.
  unfold getElementById, set_className, addEventListener. js_unfold.
  destruct (find_element _ (document st)) as [i |]; cbn; [| done].
  unfold mark_upvoted. by rewrite list_alter_alter_eq.
Qed.

Lemma for_of_app {A : Type} (xs ys : list A) (body : A → js ()) (st : state) :
  for_of (xs ++ ys) body st = (for_of xs body;; for_of ys body) st.
Proof.
  revert st. induction xs as [| x xs IH]; intros st; [done |].
  cbn [app for_of]. unfold mbind, js_bind in *.
  destruct (body x st) as [[[] | error] st1]; [apply IH | done].
Qed.

(** ** Hydration with a reply *)

Lemma eid_mark_upvoted (site_id : string) (e : element) :
  eid (mark_upvoted site_id e) = eid e.
Proof. done. Qed.

(** On a page whose targets resolve, a reply with [site_ids] is applied id
    by id from the state [awaiting_votes]; an error on the way is logged. *)
Lemma populate_votes_parsed (j : json) (ups : list string) (st : state) :
  targets_resolve st →
  site_ids j = Some ups →
  populate_votes (Parsed j) st
  = match for_of ups
            (λ site_id,
               elem ← getElementById ("vote-" +:+ site_id);
               set_className elem "upvoted";;
               let closure := vote_closure site_id 0 in
               addEventListener elem (Invoke closure))
            (awaiting_votes st) with
    | (Normal _, st') => (Normal Undefined, st')
    | (Throw error, st') =>
        (Normal Null, after [Log ("Error getting vote data: " +:+ error)] st')
    end.
Proof.
  intros Hres Hups. unfold populate_votes.
  erewrite bind_normal by reflexivity.
  erewrite bind_normal by apply discovery_loop.
  cbn [app]. fold (discovered (document st)).
  set (logs := (λ id, Log ("pushing " +:+ id)) <$> discovered (document st)).
  erewrite bind_normal.
  2:{ apply (for_of_update_controls initialise eid_initialise);
        [intros x st0 i Hi; by apply initialise_step | exact Hres]. }
  erewrite bind_normal by reflexivity.
  erewrite bind_normal by reflexivity.
  rewrite try_catch_fetch. cbn [mbind option_bind]. rewrite Hups.
  match goal with
  | |- try_catch _ _ ?s = _ =>
      replace s with (awaiting_votes st)
  end.
  - unfold try_catch, iterate. js_unfold.
    by destruct (for_of ups _ (awaiting_votes st)) as [[[] | error] st'].
  - unfold awaiting_votes, votes_form, after, with_document. cbn.
    rewrite to_string_getItem. by rewrite <- !app_assoc.
Qed.

(** The controls once the ids [applied] of a reply have been gone through. *)
Lemma hydrated_controls (applied : list string) (st : state)
    (site_id : string) :
  targets_resolve st →
  site_id ∈ discovered (document st) →
  control_has site_id
    (λ e, className e = hydrated_class applied site_id ∧
          innerHTML e = "&#10145;" ∧
          (site_id, 1) ∈ click_calls e ∧
          (site_id ∈ applied → (site_id, 0) ∈ click_calls e))
    (update_controls mark_upvoted applied
       (update_controls initialise (discovered (document st)) (document st))).
Proof.
  intros Hres Hin.
  assert (Hinit :
    control_has site_id
      (λ e, className e = "unvoted" ∧ innerHTML e = "&#10145;" ∧
            (site_id, 1) ∈ click_calls e)
      (update_controls initialise (discovered (document st)) (document st))).
  { apply (update_controls_reach initialise eid_initialise _ _ (λ _, True));
      try done.
    - intros e _. repeat split; try done. unfold initialise.
      change (click_calls (with_innerHTML ?h ?e)) with (click_calls e).
      rewrite click_calls_with_listener. apply elem_of_app. right.
      apply list_elem_of_here.
    - intros e (_ & _ & Hcall). repeat split; try done. unfold initialise.
      change (click_calls (with_innerHTML ?h ?e)) with (click_calls e).
      rewrite click_calls_with_listener. apply elem_of_app. by left.
    - unfold targets_resolve in Hres. rewrite Forall_forall in Hres.
      destruct (Hres site_id Hin) as [i Hi].
      pose proof Hi as (e & He & _)%find_element_lookup. by exists i, e. }
  unfold hydrated_class. destruct (decide (site_id ∈ applied)) as [Hup | Hup].
  - eapply (update_controls_reach mark_upvoted eid_mark_upvoted);
      [exact Hup | | | exact Hinit].
    + intros e (_ & Hh & Hcall). repeat split; try done.
      * unfold mark_upvoted. rewrite click_calls_with_listener.
        apply elem_of_app. by left.
      * intros _. unfold mark_upvoted. rewrite click_calls_with_listener.
        apply elem_of_app. right. apply list_elem_of_here.
    + intros e (_ & Hh & Hcall1 & Hcall0). repeat split; try done.
      * unfold mark_upvoted. rewrite click_calls_with_listener.
        apply elem_of_app. by left.
      * intros _. unfold mark_upvoted. rewrite click_calls_with_listener.
        apply elem_of_app. right. apply list_elem_of_here.
  - apply (update_controls_stable mark_upvoted eid_mark_upvoted); [done |].
    destruct Hinit as (i & e & Hi & He & Hc & Hh & Hcall).
    exists i, e. repeat split; try done.
Qed.

Lemma control_has_control (site_id : string) (Q : element → Prop)
    (st : state) :
  control_has site_id Q (document st) → ∃ e, control site_id st = Some e ∧ Q e.
Proof.
  intros (i & e & Hi & He & HQ). exists e. split; [| done].
  apply control_lookup. by exists i.
Qed.

(** X9.  Hydration with a reply: on a page whose targets resolve, when every
    id of the reply names a control, [populate_votes] returns normally and
    each discovered site shows [upvoted] if the reply lists it and [unvoted]
    if not, with the arrow as content.  The code of the reply plays no part.
    The control of every site calls [tryvote(site_id, 1)] when activated, and
    the control of a listed site calls [tryvote(site_id, 0)] as well. *)
Theorem hydration_applies_reply (j : json) (ups : list string) (st : state)
    (site_id : string) :
  targets_resolve st →
  site_ids j = Some ups →
  Forall (λ id, is_Some (find_element ("vote-" +:+ id) (document st))) ups →
  site_id ∈ discovered (document st) →
  let out := populate_votes (Parsed j) st in
  out.1 = Normal Undefined ∧
  ∃ e, control site_id out.2 = Some e ∧
       className e = hydrated_class ups site_id ∧
       innerHTML e = "&#10145;" ∧
       (site_id, 1) ∈ click_calls e ∧
       (site_id ∈ ups → (site_id, 0) ∈ click_calls e).
Proof.
  intros Hres Hups Hknown Hin out. subst out.
  rewrite (populate_votes_parsed j ups st Hres Hups).
  rewrite (for_of_update_controls mark_upvoted eid_mark_upvoted).
  - split; [done |]. cbn [snd].
    apply (control_has_control site_id _
             (with_document _ (awaiting_votes st))).
    by apply hydrated_controls.
  - intros x st0 i Hi. by rewrite mark_upvoted_step, Hi.
  - eapply Forall_impl; [exact Hknown |]. intros id Hid. cbn.
    by rewrite (update_controls_find initialise eid_initialise).
Qed.

Lemma hydration_applies_reply_witness :
  let st := {| document := [Element "div" "vote-a1" "" "" [];
                            Element "div" "vote-b2" "" "" []];
               localStorage := ∅; trace := [] |} in
  let out := populate_votes
               (Parsed (Json (Some 500) (Some "busy") None (Some ["b2"]))) st in
  out.1 = Normal Undefined ∧
  ∃ e, control "b2" out.2 = Some e ∧
       className e = "upvoted" ∧
       innerHTML e = "&#10145;" ∧
       ("b2", 1) ∈ click_calls e ∧
       ("b2" ∈ ["b2"] → ("b2", 0) ∈ click_calls e).
Proof.
  intros st.
  apply (hydration_applies_reply
           (Json (Some 500) (Some "busy") None (Some ["b2"])) ["b2"] st "b2").
  - unfold targets_resolve. cbn. repeat constructor; by eexists.
  - reflexivity.
  - repeat constructor. by eexists.
  - apply list_elem_of_further, list_elem_of_here.
Defined.

(** X10.  A reply that lists a site without control on the page: the ids
    before it are applied, the assignment to the class of [null] is caught
    and logged, and [populate_votes] returns [null].  The ids after it are
    never looked at: such a site stays [unvoted] although the reply lists
    it. *)
Theorem hydration_stops_at_unknown_site (j : json) (known rest : list string)
    (unknown : string) (st : state) (site_id : string) :
  targets_resolve st →
  site_ids j = Some (known ++ unknown :: rest) →
  Forall (λ id, is_Some (find_element ("vote-" +:+ id) (document st))) known →
  find_element ("vote-" +:+ unknown) (document st) = None →
  site_id ∈ discovered (document st) →
  let out := populate_votes (Parsed j) st in
  out.1 = Normal Null ∧
  last (trace out.2) = Some (Log ("Error getting vote data: " +:+ type_error)) ∧
  ∃ e, control site_id out.2 = Some e ∧
       className e = hydrated_class known site_id.
Proof.
  intros Hres Hups Hknown Hunknown Hin out. subst out.
  rewrite (populate_votes_parsed j _ st Hres Hups), for_of_app.
  erewrite bind_normal.
  2:{ apply (for_of_update_controls mark_upvoted eid_mark_upvoted).
      - intros x st0 i Hi. by rewrite mark_upvoted_step, Hi.
      - eapply Forall_impl; [exact Hknown |]. intros id Hid. cbn.
        by rewrite (update_controls_find initialise eid_initialise). }
  cbn [for_of]. erewrite bind_throw.
  2:{ rewrite mark_upvoted_step. cbn.
      by rewrite (update_controls_find mark_upvoted eid_mark_upvoted),
        (update_controls_find initialise eid_initialise), Hunknown. }
  cbn [fst snd]. split; [done |]. split.
  { cbn. by rewrite last_snoc. }
  destruct (control_has_control site_id _
              (with_document
                 (update_controls mark_upvoted known
                    (update_controls initialise (discovered (document st))
                       (document st)))
                 st) (hydrated_controls known st site_id Hres Hin))
    as (e & He & Hc & _).
  by exists e.
Qed.

Lemma hydration_stops_at_unknown_site_witness :
  let st := {| document := [Element "div" "vote-a1" "" "" [];
                            Element "div" "vote-b2" "" "" []];
               localStorage := ∅; trace := [] |} in
  let out := populate_votes
               (Parsed (Json (Some 200) None None (Some ["a1"; "zz"; "b2"])))
               st in
  out.1 = Normal Null ∧
  last (trace out.2) = Some (Log ("Error getting vote data: " +:+ type_error)) ∧
  ∃ e, control "b2" out.2 = Some e ∧ className e = "unvoted".
Proof.
  intros st.
  apply (hydration_stops_at_unknown_site
           (Json (Some 200) None None (Some ["a1"; "zz"; "b2"]))
           ["a1"] ["b2"] "zz" st "b2").
  - unfold targets_resolve. cbn. repeat constructor; by eexists.
  - reflexivity.
  - repeat constructor. by eexists.
  - reflexivity.
  - apply list_elem_of_further, list_elem_of_here.
Defined.

(** ** Element ids that discovery takes for controls *)

Lemma prefix_append (p s : string) : String.prefix p (p +:+ s) = true.
Proof.
  induction p as [| a p IH]; [by destruct s |].
  change (String a p +:+ s) with (String a (p +:+ s)).
  cbn [String.prefix]. by destruct (ascii_dec a a).
Qed.

Lemma includes_append (pat p s : string) :
  includes pat (p +:+ pat +:+ s) = true.
Proof.
  induction p as [| a p IH].
  - change (EmptyString +:+ pat +:+ s) with (pat +:+ s).
    destruct (pat +:+ s) eqn:Heq; cbn [includes]; rewrite <- Heq;
      by rewrite prefix_append.
  - change (String a p +:+ pat +:+ s) with (String a (p +:+ pat +:+ s)).
    cbn [includes]. by rewrite IH, orb_true_r.
Qed.

Lemma split_append_free (p t : string) :
  hyphen_free p →
  split "-" (p +:+ t)
  = match split "-" t with
    | part :: parts => (p +:+ part) :: parts
    | [] => [p]
    end.
Proof.
  unfold hyphen_free. induction p as [| a p IH]; intros Hp.
  - change (EmptyString +:+ t) with t.
    by destruct (split_cons_inv "-" t) as (part & parts & ->).
  - rewrite includes_hyphen_cons in Hp.
    apply orb_false_iff in Hp as [Ha Hp].
    change (String a p +:+ t) with (String a (p +:+ t)).
    cbn [split]. rewrite Ha, (IH Hp).
    by destruct (split_cons_inv "-" t) as (part & parts & ->).
Qed.

(** X12.  One control whose site id has a hyphen disables hydration for the
    whole page: when no element carries the id cut at the hyphen,
    [populate_votes] throws in its second loop, before the request, so the
    server is never asked and local storage is untouched. *)
Theorem hyphenated_site_stops_hydration (r : reply) (st : state)
    (e : element) (site_id : string) :
  e ∈ document st →
  tagName e = "div" →
  eid e = "vote-" +:+ site_id →
  find_element ("vote-" +:+ before_hyphen site_id) (document st) = None →
  (populate_votes r st).1 = Throw type_error ∧
  requests (trace (populate_votes r st).2) = requests (trace st) ∧
  localStorage (populate_votes r st).2 = localStorage st ∧
  ¬ hyphen_free site_id.
Proof.
  intros He Hdiv Heid Hnone.
  assert (Hcap : vote_capable (eid e) = true).
  { rewrite Heid. apply (includes_append "vote-" EmptyString). }
  assert (Hnot : ¬ targets_resolve st).
  { unfold targets_resolve. rewrite Forall_forall. intros Hres.
    destruct (Hres (site_id_of (eid e)) (discovered_elem _ _ He Hdiv Hcap))
      as [i Hi].
    rewrite Heid, site_id_of_vote in Hi. congruence. }
  destruct (unresolved_target_stops_hydration r st Hnot) as [Hthrow Hreq].
  split; [done |]. split; [done |]. split.
  - by destruct (keeps_populate_votes (λ _, True) r) with (st := st).
  - intros Hfree. apply before_hyphen_fixed in Hfree. rewrite Hfree in Hnone.
    unfold find_element in Hnone.
    destruct (list_find_elem_of (λ e', eid e' = "vote-" +:+ site_id)
                (document st) e He Heid) as [[i e'] Hfind].
    by rewrite Hfind in Hnone.
Qed.

Lemma hyphenated_site_stops_hydration_witness :
  let e := Element "div" "vote-my-site" "" "" [] in
  let st := {| document := [Element "div" "vote-a1" "" "" []; e];
               localStorage := ∅; trace := [] |} in
  let r := Parsed (Json (Some 200) None None (Some [])) in
  (populate_votes r st).1 = Throw type_error ∧
  requests (trace (populate_votes r st).2) = requests (trace st) ∧
  localStorage (populate_votes r st).2 = localStorage st ∧
  ¬ hyphen_free "my-site".
Proof.
  intros e st r. apply (hyphenated_site_stops_hydration r st e "my-site").
  - apply list_elem_of_further, list_elem_of_here.
  - reflexivity.
  - reflexivity.
  - reflexivity.
Defined.

(** ** What the script never does to the page *)

Section Respects.

Variable R : relation state.
Hypothesis R_refl : ∀ st, R st st.
Hypothesis R_trans : ∀ st1 st2 st3, R st1 st2 → R st2 st3 → R st1 st3.

Context {A B : Type}.

Lemma respects_bind (m : js A) (f : A → js B) :
  respects R m → (∀ a, respects R (f a)) → respects R (m ≫= f).
Proof.
  intros Hm Hf st. unfold mbind, js_bind. specialize (Hm st).
  destruct (m st) as [[a | error] st1]; [| done].
  eapply R_trans; [exact Hm | apply Hf].
Qed.

Lemma respects_try_catch (m : js A) (handler : string → js A) :
  respects R m → (∀ error, respects R (handler error)) →
  respects R (try_catch m handler).
Proof.
  intros Hm Hh st. unfold try_catch. specialize (Hm st).
  destruct (m st) as [[a | error] st1]; [done |].
  eapply R_trans; [exact Hm | apply Hh].
Qed.

Lemma respects_for_of (xs : list A) (body : A → js ()) :
  (∀ x, respects R (body x)) → respects R (for_of xs body).
Proof.
  intros Hbody. induction xs as [| x xs IH]; cbn [for_of].
  - intros st. apply R_refl.
  - intros st. unfold mbind, js_bind. pose proof (Hbody x st) as Hx.
    destruct (body x st) as [[[] | error] st1]; [| done].
    eapply R_trans; [exact Hx | apply IH].
Qed.

Lemma respects_for_of_with (xs : list A) (acc : B) (body : B → A → js B) :
  (∀ acc x, respects R (body acc x)) → respects R (for_of_with xs acc body).
Proof.
  intros Hbody. revert acc. induction xs as [| x xs IH]; intros acc;
    cbn [for_of_with].
  - intros st. apply R_refl.
  - intros st. unfold mbind, js_bind. pose proof (Hbody acc x st) as Hx.
    destruct (body acc x st) as [[acc' | error] st1]; [| done].
    eapply R_trans; [exact Hx | apply IH].
Qed.

End Respects.

Section Touching.

Variable allowed : string → Prop.

Lemma touching_refl (st : state) : touching allowed st st.
Proof. unfold touching. by apply Forall_Forall2_diag, Forall_true. Qed.

Lemma touching_trans (st1 st2 st3 : state) :
  touching allowed st1 st2 → touching allowed st2 st3 →
  touching allowed st1 st3.
Proof.
  unfold touching. generalize (document st1), (document st2),
    (document st3). clear. intros d1 d2 d3 H12. revert d3.
  induction H12 as [| e1 e2 d1 d2 (Ht & Hi & He) _ IH]; intros d3 H23;
    inversion H23 as [| ? e3 ? d3' (Ht' & Hi' & He') H23']; subst;
    constructor; auto.
  split; [congruence |]. split; [congruence |].
  intros Hp. rewrite He' by (by rewrite Hi). auto.
Qed.

Lemma touching_unchanged {A : Type} (m : js A) :
  (∀ st, document (m st).2 = document st) → respects (touching allowed) m.
Proof.
  intros Hm st. unfold touching. rewrite Hm.
  by apply Forall_Forall2_diag, Forall_true.
Qed.

(** Updating the element found for an allowed id, without touching its id
    or tag. *)
Lemma touching_alter (x : string) (f : element → element) (i : nat)
    (st st' : state) :
  allowed ("vote-" +:+ x) →
  (∀ e, eid (f e) = eid e) →
  (∀ e, tagName (f e) = tagName e) →
  find_element ("vote-" +:+ x) (document st) = Some i →
  document st' = alter f i (document st) →
  touching allowed st st'.
Proof.
  intros Hx Hid Htag Hi Hdoc. unfold touching. rewrite Hdoc.
  apply Forall2_alter_r; [by apply Forall_Forall2_diag, Forall_true |].
  intros e e' He He' _. simplify_eq.
  split; [done |]. split; [done |]. intros Hp.
  apply find_element_lookup in Hi as (e0 & He0 & Heid). simplify_eq.
  by rewrite Heid in Hp.
Qed.

Lemma touching_bind {A B : Type} (m : js A) (f : A → js B) :
  respects (touching allowed) m → (∀ a, respects (touching allowed) (f a)) →
  respects (touching allowed) (m ≫= f).
Proof. apply respects_bind, touching_trans. Qed.

Lemma touching_try_catch {A : Type} (m : js A) (handler : string → js A) :
  respects (touching allowed) m →
  (∀ error, respects (touching allowed) (handler error)) →
  respects (touching allowed) (try_catch m handler).
Proof. apply respects_try_catch, touching_trans. Qed.

Lemma touching_for_of {A : Type} (xs : list A) (body : A → js ()) :
  (∀ x, respects (touching allowed) (body x)) →
  respects (touching allowed) (for_of xs body).
Proof. apply respects_for_of; [apply touching_refl | apply touching_trans]. Qed.

Lemma touching_for_of_with {A B : Type} (xs : list A) (acc : B)
    (body : B → A → js B) :
  (∀ acc x, respects (touching allowed) (body acc x)) →
  respects (touching allowed) (for_of_with xs acc body).
Proof.
  apply respects_for_of_with; [apply touching_refl | apply touching_trans].
Qed.

(** The three places where the script writes to an element. *)
Lemma touching_initialise (site_id : string) :
  allowed ("vote-" +:+ site_id) →
  respects (touching allowed)
    (elem ← getElementById ("vote-" +:+ site_id);
     set_className elem "unvoted";;
     let closure := vote_closure site_id 1 in
     addEventListener elem (Invoke closure);;
     set_innerHTML elem "&#10145;").
Proof.
  intros Hx st.
  destruct (find_element ("vote-" +:+ site_id) (document st)) as [i |] eqn:Hi.
  - rewrite (initialise_step site_id st i Hi).
    by eapply (touching_alter site_id (initialise site_id)).
  - unfold getElementById, set_className. js_unfold. rewrite Hi.
    apply touching_refl.
Qed.

Lemma touching_mark_upvoted (site_id : string) :
  allowed ("vote-" +:+ site_id) →
  respects (touching allowed)
    (elem ← getElementById ("vote-" +:+ site_id);
     set_className elem "upvoted";;
     let closure := vote_closure site_id 0 in
     addEventListener elem (Invoke closure)).
Proof.
  intros Hx st. rewrite mark_upvoted_step.
  destruct (find_element ("vote-" +:+ site_id) (document st)) as [i |] eqn:Hi.
  - by eapply (touching_alter site_id (mark_upvoted site_id)).
  - apply touching_refl.
Qed.

Lemma touching_rebind (site_id class : string) (l : listener) :
  allowed ("vote-" +:+ site_id) →
  respects (touching allowed)
    (elem ← getElementById ("vote-" +:+ site_id);
     set_className elem class;;
     addEventListener elem l;;
     mret Undefined).
Proof.
  intros Hx st. unfold getElementById, set_className, addEventListener.
  js_unfold.
  destruct (find_element ("vote-" +:+ site_id) (document st)) as [i |] eqn:Hi;
    cbn; [| apply touching_refl].
  eapply (touching_alter site_id (with_listener l ∘ with_className class));
    try done. cbn. by rewrite list_alter_alter_eq.
Qed.

Lemma touching_get_id (force : bool) (r : reply) :
  respects (touching allowed) (get_id force r).
Proof.
  apply touching_unchanged. intros st. unfold get_id. js_unfold.
  destruct (localStorage st !! voter_key) as [[| c s] |], force,
    r as [e | e | j |]; cbn; rewrite ?andb_false_r; cbn;
    try destruct (code_is_200 j); done.
Qed.

Lemma touching_tryvote (site_id : string) (vote : Z) (rid rvote : reply) :
  allowed ("vote-" +:+ site_id) →
  respects (touching allowed) (tryvote site_id vote rid rvote).
Proof.
  intros Hx. unfold tryvote.
  apply touching_bind; [by apply touching_unchanged |].
  intros _. apply touching_bind; [apply touching_get_id |].
  intros voter. apply touching_bind.
  { apply touching_unchanged. by destruct voter. }
  intros len.
  destruct (bool_decide (len = 0%nat)); [by apply touching_unchanged |].
  apply touching_bind.
  { apply touching_unchanged. by destruct ((vote <? 0) || (1 <? vote)). }
  intros _. apply touching_bind.
  { apply touching_unchanged. intros st. unfold fetch_json. js_unfold.
    by destruct rvote. }
  intros [[j |] |]; [| by apply touching_unchanged..].
  destruct (code_is_200 j); [| by apply touching_unchanged].
  destruct (vote =? 1); [by apply touching_rebind |].
  destruct (vote =? 0); [by apply touching_rebind |
                          by apply touching_unchanged].
Qed.

Lemma touching_populate_votes (r : reply) :
  (∀ site_id, allowed ("vote-" +:+ site_id)) →
  respects (touching allowed) (populate_votes r).
Proof.
  intros Hall. unfold populate_votes.
  apply touching_bind; [by apply touching_unchanged |].
  intros divs. apply touching_bind.
  { apply touching_for_of_with. intros ids elem.
    apply touching_unchanged. by destruct (vote_capable (eid elem)). }
  intros ids. apply touching_bind.
  { apply touching_for_of. intros x. by apply touching_initialise. }
  intros _. apply touching_bind; [by apply touching_unchanged |].
  intros voter. apply touching_bind; [by apply touching_unchanged |].
  intros _. apply touching_try_catch.
  - apply touching_bind.
    { apply touching_unchanged. intros st. unfold fetch_json. js_unfold.
      by destruct r. }
    intros json. apply touching_bind.
    { apply touching_unchanged. by destruct (json ≫= site_ids). }
    intros upvoted. apply touching_bind.
    + apply touching_for_of. intros x. by apply touching_mark_upvoted.
    + intros _. by apply touching_unchanged.
  - intros error. by apply touching_unchanged.
Qed.

Lemma touching_session (casts : list cast) (st : state) :
  (∀ site_id, allowed ("vote-" +:+ site_id)) →
  touching allowed st (session casts st).
Proof.
  intros Hall. revert st. induction casts as [| c casts IH]; intros st;
    [apply touching_refl |].
  cbn [session]. eapply touching_trans; [| apply IH].
  by apply touching_tryvote.
Qed.

Lemma touching_lookup (st st' : state) (k : nat) (e : element) :
  touching allowed st st' →
  document st !! k = Some e →
  ∃ e', document st' !! k = Some e' ∧
        tagName e' = tagName e ∧
        eid e' = eid e ∧
        (¬ allowed (eid e) → e' = e).
Proof.
  intros Hsame He.
  destruct (Forall2_lookup_l _ _ _ _ _ Hsame He) as (e' & He' & HR).
  by exists e'.
Qed.

Lemma touching_discovered (st st' : state) :
  touching allowed st st' →
  discovered (document st') = discovered (document st).
Proof.
  unfold touching, discovered.
  induction 1 as [| e e' d d' (Ht & Hi & _) _ IH]; [done |].
  rewrite !filter_cons, Ht.
  destruct (decide (tagName e = "div")); [| done].
  cbn [fmap list_fmap]. rewrite !filter_cons, Hi.
  destruct (decide (vote_capable (eid e) = true)); [| done].
  cbn [fmap list_fmap]. by f_equal.
Qed.

Lemma touching_find (st st' : state) (id : string) :
  touching allowed st st' →
  find_element id (document st') = find_element id (document st).
Proof.
  unfold touching, find_element.
  induction 1 as [| e e' d d' (_ & Hi & _) _ IH]; [done |].
  cbn [list_find]. rewrite Hi.
  destruct (decide (eid e = id)); [done |].
  destruct (list_find _ d') as [[]|], (list_find _ d) as [[]|];
    by simplify_eq/=.
Qed.

End Touching.

Lemma vote_id_prefix (site_id : string) : vote_id ("vote-" +:+ site_id).
Proof. apply prefix_append. Qed.

(** X13.  Casts leave the page in place: whatever the replies and the
    outcomes (also after an exception), any number of calls of [tryvote]
    never adds, removes, renames or retags an element, and leaves every
    element whose id does not start with [vote-] exactly as it was. *)
Theorem casts_keep_the_elements (casts : list cast) (st : state) :
  let st' := session casts st in
  length (document st') = length (document st) ∧
  ∀ k e, document st !! k = Some e →
    ∃ e', document st' !! k = Some e' ∧
          tagName e' = tagName e ∧
          eid e' = eid e ∧
          (String.prefix "vote-" (eid e) = false → e' = e).
Proof.
  intros st'.
  assert (Hsame : touching vote_id st st')
    by apply touching_session, vote_id_prefix.
  split.
  - symmetry. by eapply Forall2_length.
  - intros k e He.
    destruct (touching_lookup _ _ _ _ _ Hsame He) as (e' & He' & Ht & Hi & Hx).
    exists e'. repeat split; try done. intros Hp. apply Hx.
    unfold vote_id. by rewrite Hp.
Qed.

(** X6.  A call of [tryvote] for a site, whatever the replies and however it
    ends, can change one element only, the one with id [vote-] plus the site
    id: the document keeps its length, every other element is exactly as it
    was, and so is the control of every other site. *)
Theorem cast_touches_one_control (site_id : string) (vote : Z)
    (rid rvote : reply) (st : state) :
  let st' := (tryvote site_id vote rid rvote st).2 in
  length (document st') = length (document st) ∧
  (∀ k e, document st !! k = Some e → eid e ≠ "vote-" +:+ site_id →
          document st' !! k = Some e) ∧
  (∀ other, other ≠ site_id → control other st' = control other st).
Proof.
  intros st'.
  assert (Hsame : touching (λ id, id = "vote-" +:+ site_id) st st')
    by by apply touching_tryvote.
  assert (Hkeep : ∀ k e, document st !! k = Some e →
                    eid e ≠ "vote-" +:+ site_id → document st' !! k = Some e).
  { intros k e He Hne.
    destruct (touching_lookup _ _ _ _ _ Hsame He) as (e' & He' & _ & _ & Hx).
    by rewrite He', (Hx Hne). }
  split; [symmetry; by eapply Forall2_length |]. split; [exact Hkeep |].
  intros other Hother. unfold control.
  rewrite (touching_find _ _ _ _ Hsame).
  destruct (find_element ("vote-" +:+ other) (document st)) as [k |] eqn:Hk;
    [| done]. cbn.
  pose proof Hk as (e & He & Heid)%find_element_lookup.
  rewrite He. apply Hkeep; [done |]. rewrite Heid. intros Heq.
  by apply (inj (String.append "vote-")) in Heq.
Qed.

(** ** The site id of an element, from discovery to the controls *)

(** The third loop applies the ids up to the first that names no element. *)
Lemma mark_upvoted_loop (ups : list string) (st : state) :
  ∃ c applied,
    for_of ups
      (λ site_id,
         elem ← getElementById ("vote-" +:+ site_id);
         set_className elem "upvoted";;
         let closure := vote_closure site_id 0 in
         addEventListener elem (Invoke closure)) st
    = (c, with_document
            (update_controls mark_upvoted applied (document st)) st).
Proof.
  revert st. induction ups as [| x ups IH]; intros st.
  { exists (Normal ()), []. by destruct st. }
  cbn [for_of].
  destruct (find_element ("vote-" +:+ x) (document st)) as [i |] eqn:Hi.
  - erewrite bind_normal by (by rewrite mark_upvoted_step, Hi).
    destruct (IH (with_document (alter (mark_upvoted x) i (document st)) st))
      as (c & applied & Hrun).
    exists c, (x :: applied). cbn [update_controls]. rewrite Hi. exact Hrun.
  - erewrite bind_throw by (by rewrite mark_upvoted_step, Hi).
    exists (Throw type_error), []. by destruct st.
Qed.

(** On a page whose targets resolve, a bulk request that fails is logged
    from the state [awaiting_votes]. *)
Lemma populate_votes_failed (r : reply) (st : state) :
  targets_resolve st →
  bulk_failed r →
  populate_votes r st
  = (Normal Null,
     after [Log ("Error getting vote data: " +:+ bulk_error r)]
       (awaiting_votes st)).
Proof.
  intros Hres Hr. unfold populate_votes.
  erewrite bind_normal by reflexivity.
  erewrite bind_normal by apply discovery_loop.
  cbn [app]. fold (discovered (document st)).
  set (logs := (λ id, Log ("pushing " +:+ id)) <$> discovered (document st)).
  erewrite bind_normal.
  2:{ apply (for_of_update_controls initialise eid_initialise);
        [intros x st0 i Hi; by apply initialise_step | exact Hres]. }
  erewrite bind_normal by reflexivity.
  erewrite bind_normal by reflexivity.
  rewrite try_catch_fetch.
  match goal with
  | |- try_catch _ _ ?s = _ =>
      replace s with (awaiting_votes st)
  end.
  - destruct r as [error | error | j |]; try done.
    cbn in Hr. cbn [mbind option_bind]. by rewrite Hr.
  - unfold awaiting_votes, votes_form, after, with_document. cbn.
    rewrite to_string_getItem. by rewrite <- !app_assoc.
Qed.

(** Hydration of a page whose targets resolve, whatever the reply: the
    controls of the discovered sites are initialised, the request is sent,
    and some ids of the reply are applied. *)
Lemma populate_votes_hydrated (r : reply) (st : state) :
  targets_resolve st →
  ∃ c applied evs,
    populate_votes r st
    = (c, after evs
            (with_document
               (update_controls mark_upvoted applied
                  (update_controls initialise (discovered (document st))
                     (document st)))
               (awaiting_votes st))).
Proof.
  intros Hres.
  assert (Hcases : bulk_failed r ∨ ∃ j ups, r = Parsed j ∧ site_ids j = Some ups).
  { destruct r as [error | error | j |]; cbn; auto.
    destruct (site_ids j) as [ups |] eqn:Hj; eauto. }
  destruct Hcases as [Hr | (j & ups & -> & Hups)].
  - rewrite (populate_votes_failed r st Hres Hr).
    by exists (Normal Null), [], [Log ("Error getting vote data: " +:+ bulk_error r)].
  - rewrite (populate_votes_parsed j ups st Hres Hups).
    destruct (mark_upvoted_loop ups (awaiting_votes st))
      as (c & applied & ->).
    destruct c as [[] | error].
    + exists (Normal Undefined), applied, []. by rewrite after_nil.
    + by exists (Normal Null), applied,
        [Log ("Error getting vote data: " +:+ error)].
Qed.

(** The lines logged by discovery are in the trace however hydration
    ends. *)
Lemma populate_votes_pushes (r : reply) (st : state) :
  ∃ evs,
    trace (populate_votes r st).2
    = trace st
        ++ ((λ id, Log ("pushing " +:+ id)) <$> discovered (document st))
        ++ evs.
Proof.
  assert (Hdec : Decision (targets_resolve st))
    by (unfold targets_resolve; apply _).
  destruct Hdec as [Hres | Hres].
  - destruct (populate_votes_hydrated r st Hres) as (c & applied & evs & ->).
    eexists. cbn. rewrite <- !app_assoc. reflexivity.
  - exists []. rewrite app_nil_r. unfold populate_votes.
    erewrite bind_normal by reflexivity.
    erewrite bind_normal by apply discovery_loop.
    cbn [app]. fold (discovered (document st)).
    set (logs := (λ id, Log ("pushing " +:+ id)) <$> discovered (document st)).
    destruct (initialise_loop_throws (discovered (document st)) (after logs st))
      as (st' & Hrun & Htr).
    { apply not_Forall_Exists in Hres; [| apply _].
      eapply Exists_impl; [exact Hres |]. intros id Hid. cbn in *.
      by destruct (find_element _ (document st)); [destruct Hid |]. }
    erewrite bind_throw by exact Hrun. cbn. by rewrite Htr.
Qed.

(** What hydration does with the id discovery collects for an element: it
    is logged; when no element has the id [vote-] plus that id, hydration
    ends before the request; on a page whose targets resolve it is sent in
    the request, and the element initialised for it, whose listener will
    cast for it, is the one with the id [vote-] plus that id. *)
Lemma discovered_id_is_used (r : reply) (st : state) (id : string) :
  id ∈ discovered (document st) →
  let out := populate_votes r st in
  (∃ evs, trace out.2 = trace st ++ evs ∧ Log ("pushing " +:+ id) ∈ evs) ∧
  (find_element ("vote-" +:+ id) (document st) = None →
   out.1 = Throw type_error ∧
   requests (trace out.2) = requests (trace st)) ∧
  (targets_resolve st →
   requests (trace out.2)
   = requests (trace st) ++ [("/votes/", votes_form st)] ∧
   ∃ c, control id out.2 = Some c ∧
        eid c = "vote-" +:+ id ∧
        innerHTML c = "&#10145;" ∧
        (id, 1) ∈ click_calls c).
Proof.
  intros Hin out. subst out. split; [| split].
  - destruct (populate_votes_pushes r st) as [evs ->]. eexists.
    split; [reflexivity |]. apply elem_of_app. left.
    by apply (list_elem_of_fmap_2 (λ id, Log ("pushing " +:+ id))).
  - intros Hnone. apply unresolved_target_stops_hydration.
    unfold targets_resolve. rewrite Forall_forall. intros Hres.
    destruct (Hres id Hin) as [i Hi]. congruence.
  - intros Hres. split; [by apply populate_votes_requests |].
    destruct (populate_votes_hydrated r st Hres) as (c & applied & evs & ->).
    destruct (hydrated_controls applied st id Hres Hin)
      as (i & e & Hi & He & _ & Hh & Hcall & _).
    exists e. split; [apply control_lookup; by exists i |].
    split; [| done].
    apply find_element_lookup in Hi as (e' & He' & Heid). by simplify_eq.
Qed.

(** C10.  For a vote-capable [div], the id that [populate_votes] pushes is
    the part of the element id between its first hyphen and its second one,
    or the end.  When the element id is [vote-] followed by the site id,
    that part is the site id exactly when the site id has no hyphen;
    otherwise it is the site id cut before its first hyphen.  The cut id is
    the one hydration works with: it is the one logged; the lookup that
    follows is for [vote-] plus the cut id, and hydration ends there,
    before any request, when no element has that id; on a page whose
    targets resolve, it is among the ids listed in the one request to
    [/votes/], and the element initialised for it (with the arrow as
    content and a listener that casts for the cut id) is the one whose id
    is [vote-] plus the cut id. *)
Theorem discovery_cuts_at_hyphen (r : reply) (st : state) (e : element) :
  e ∈ document st →
  tagName e = "div" →
  vote_capable (eid e) = true →
  let id := site_id_of (eid e) in
  let out := populate_votes r st in
  (∃ before rest,
     split "-" (eid e) = before :: id :: rest ∧
     hyphen_free before ∧
     hyphen_free id ∧
     eid e = before +:+ "-" +:+ String.concat "-" (id :: rest)) ∧
  (∀ site_id,
     eid e = "vote-" +:+ site_id →
     (id = site_id ↔ hyphen_free site_id) ∧
     ∃ tail, site_id = id +:+ tail ∧
             (tail = EmptyString ∨ ∃ t, tail = String "-" t)) ∧
  id ∈ discovered (document st) ∧
  (∃ evs, trace out.2 = trace st ++ evs ∧ Log ("pushing " +:+ id) ∈ evs) ∧
  (find_element ("vote-" +:+ id) (document st) = None →
   out.1 = Throw type_error ∧
   requests (trace out.2) = requests (trace st)) ∧
  (targets_resolve st →
   requests (trace out.2)
   = requests (trace st)
       ++ [("/votes/",
            [("site_ids", String.concat "," (discovered (document st)));
             ("voter_id", match localStorage st !! voter_key with
                          | Some s => s
                          | None => "null"
                          end)])] ∧
   ∃ c, control id out.2 = Some c ∧
        eid c = "vote-" +:+ id ∧
        innerHTML c = "&#10145;" ∧
        (id, 1) ∈ click_calls c).
Proof.
  intros He Hdiv Hcap id out.
  pose proof (discovered_elem _ _ He Hdiv Hcap) as Hin. fold id in Hin.
  split; [| split; [| split; [done |]]].
  - destruct (site_id_of_defined (eid e) (includes_vote_hyphen _ Hcap))
      as (before & rest & Hsplit).
    exists before, rest. pose proof (split_hyphen_free (eid e)) as Hfree.
    rewrite Hsplit in Hfree.
    apply Forall_cons in Hfree as [Hb Hfree].
    apply Forall_cons in Hfree as [Hs _].
    repeat split; try done.
    rewrite <- (concat_split (eid e)) at 1. by rewrite Hsplit, concat_cons.
  - intros site_id Heid. subst id. rewrite Heid, site_id_of_vote.
    split; [apply before_hyphen_fixed | apply before_hyphen_prefix].
  - apply (discovered_id_is_used r st id Hin).
Qed.

Lemma discovery_cuts_at_hyphen_witness :
  let e := Element "div" "vote-my-site" "" "" [] in
  let st := {| document := [Element "div" "vote-my" "" "" []; e];
               localStorage := ∅; trace := [] |} in
  let r := Parsed (Json (Some 200) None None (Some [])) in
  let id := site_id_of (eid e) in
  let out := populate_votes r st in
  (∃ before rest,
     split "-" (eid e) = before :: id :: rest ∧
     hyphen_free before ∧
     hyphen_free id ∧
     eid e = before +:+ "-" +:+ String.concat "-" (id :: rest)) ∧
  (∀ site_id,
     eid e = "vote-" +:+ site_id →
     (id = site_id ↔ hyphen_free site_id) ∧
     ∃ tail, site_id = id +:+ tail ∧
             (tail = EmptyString ∨ ∃ t, tail = String "-" t)) ∧
  id ∈ discovered (document st) ∧
  (∃ evs, trace out.2 = trace st ++ evs ∧ Log ("pushing " +:+ id) ∈ evs) ∧
  (find_element ("vote-" +:+ id) (document st) = None →
   out.1 = Throw type_error ∧
   requests (trace out.2) = requests (trace st)) ∧
  (targets_resolve st →
   requests (trace out.2)
   = requests (trace st)
       ++ [("/votes/",
            [("site_ids", String.concat "," (discovered (document st)));
             ("voter_id", match localStorage st !! voter_key with
                          | Some s => s
                          | None => "null"
                          end)])] ∧
   ∃ c, control id out.2 = Some c ∧
        eid c = "vote-" +:+ id ∧
        innerHTML c = "&#10145;" ∧
        (id, 1) ∈ click_calls c).
Proof.
  intros e st r. apply (discovery_cuts_at_hyphen r st e).
  - apply list_elem_of_further, list_elem_of_here.
  - reflexivity.
  - reflexivity.
Defined.

(** The element initialised for the site [my-site] is the one with the id
    [vote-my], and the request lists [my] twice. *)
Example hyphenated_site_hydrates_another_element :
  let st := {| document := [Element "div" "vote-my" "" "" [];
                            Element "div" "vote-my-site" "" "" []];
               localStorage := ∅; trace := [] |} in
  populate_votes (Rejected "offline") st
  = (Normal Null,
     {| document := [Element "div" "vote-my" "unvoted" "&#10145;"
                       [Invoke (vote_closure "my" 1);
                        Invoke (vote_closure "my" 1)];
                     Element "div" "vote-my-site" "" "" []];
        localStorage := ∅;
        trace := [Log "pushing my"; Log "pushing my"; Log "voter id is null";
                  Fetch "/votes/" [("site_ids", "my,my");
                                   ("voter_id", "null")];
                  Log "Error getting vote data: offline"] |}).
Proof. reflexivity. Qed.

(** An id with [vote-] after a hyphen-free prefix that is not empty does not
    start with [vote-]. *)
Lemma unanchored_not_vote_prefix (before site_id t : string) :
  hyphen_free before → before ≠ EmptyString →
  before +:+ "vote-" +:+ site_id ≠ "vote-" +:+ t.
Proof.
  intros Hfree Hne Heq.
  assert (Hsplit : split "-" (before +:+ "vote-" +:+ site_id)
                   = split "-" ("vote-" +:+ t))
    by by rewrite Heq.
  rewrite split_append_free, !split_vote_prefix in Hsplit by done.
  injection Hsplit as Hhead _.
  destruct before as [| a before]; [done |].
  apply (f_equal String.length) in Hhead. clear -Hhead.
  change (String a before +:+ "vote") with (String a (before +:+ "vote"))
    in Hhead.
  cbn [String.length] in Hhead.
  assert (Hlen : ∀ x y, String.length (x +:+ y)
                        = (String.length x + String.length y)%nat).
  { intros x y. induction x as [| c x IH]; [done |].
    change (String c x +:+ y) with (String c (x +:+ y)). cbn. by rewrite IH. }
  rewrite Hlen in Hhead. cbn in Hhead. lia.
Qed.

(** X11.  The pattern that selects the controls is not anchored: a [div]
    whose id has [vote-] after some hyphen-free prefix (as in [upvote-7])
    is taken for a control by [populate_votes] too, and the site id logged
    for it is what follows [vote-] up to the next hyphen.  When the prefix
    is not empty, hydration never writes to that [div]; the lookup is for
    [vote-] plus the site id: when no element has that id hydration ends
    before any request, and on a page whose targets resolve the site id is
    sent in the request and the element initialised for it is the one with
    the id [vote-] plus the site id, another element than the [div]. *)
Theorem unanchored_pattern_discovers (r : reply) (st : state) (e : element)
    (before site_id : string) :
  e ∈ document st →
  tagName e = "div" →
  eid e = before +:+ "vote-" +:+ site_id →
  hyphen_free before →
  let id := before_hyphen site_id in
  let out := populate_votes r st in
  vote_capable (eid e) = true ∧
  site_id_of (eid e) = id ∧
  id ∈ discovered (document st) ∧
  (∃ evs, trace out.2 = trace st ++ evs ∧ Log ("pushing " +:+ id) ∈ evs) ∧
  (before ≠ EmptyString →
   eid e ≠ "vote-" +:+ id ∧
   ∀ k, document st !! k = Some e → document out.2 !! k = Some e) ∧
  (find_element ("vote-" +:+ id) (document st) = None →
   out.1 = Throw type_error ∧
   requests (trace out.2) = requests (trace st)) ∧
  (targets_resolve st →
   requests (trace out.2)
   = requests (trace st) ++ [("/votes/", votes_form st)] ∧
   ∃ c, control id out.2 = Some c ∧
        eid c = "vote-" +:+ id ∧
        innerHTML c = "&#10145;" ∧
        (id, 1) ∈ click_calls c ∧
        (before ≠ EmptyString → c ≠ e)).
Proof.
  intros He Hdiv Heid Hfree id out.
  assert (Hcap : vote_capable (eid e) = true).
  { rewrite Heid. apply includes_append. }
  assert (Hsite : site_id_of (eid e) = id).
  { unfold site_id_of, id, before_hyphen.
    rewrite Heid, split_append_free, split_vote_prefix by done.
    by destruct (split "-" site_id). }
  assert (Hin : id ∈ discovered (document st)).
  { rewrite <- Hsite. by apply discovered_elem. }
  destruct (discovered_id_is_used r st id Hin) as (Hlog & Hnone & Hres).
  split; [done |]. split; [done |]. split; [done |]. split; [done |].
  split; [| split; [done |]].
  - intros Hne. split.
    { rewrite Heid. by apply unanchored_not_vote_prefix. }
    intros k Hk.
    destruct (touching_lookup vote_id st out.2 k e) as (e' & He' & _ & _ & Hx);
      [apply touching_populate_votes, vote_id_prefix | done |].
    rewrite He', Hx; [done |]. intros [t Ht]%prefix_app.
    rewrite Heid in Ht. by eapply unanchored_not_vote_prefix.
  - intros Hresolve. destruct (Hres Hresolve) as (Hreq & c & Hc & Hcid & Hh & Hcall).
    split; [done |]. exists c. repeat split; try done.
    intros Hne ->. rewrite Heid in Hcid.
    by eapply unanchored_not_vote_prefix.
Qed.

Lemma unanchored_pattern_discovers_witness :
  let e := Element "div" "upvote-7" "" "" [] in
  let st := {| document := [Element "div" "vote-7" "" "" []; e];
               localStorage := ∅; trace := [] |} in
  let r := Parsed (Json (Some 200) None None (Some [])) in
  let id := before_hyphen "7" in
  let out := populate_votes r st in
  vote_capable (eid e) = true ∧
  site_id_of (eid e) = id ∧
  id ∈ discovered (document st) ∧
  (∃ evs, trace out.2 = trace st ++ evs ∧ Log ("pushing " +:+ id) ∈ evs) ∧
  ("up" ≠ EmptyString →
   eid e ≠ "vote-" +:+ id ∧
   ∀ k, document st !! k = Some e → document out.2 !! k = Some e) ∧
  (find_element ("vote-" +:+ id) (document st) = None →
   out.1 = Throw type_error ∧
   requests (trace out.2) = requests (trace st)) ∧
  (targets_resolve st →
   requests (trace out.2)
   = requests (trace st) ++ [("/votes/", votes_form st)] ∧
   ∃ c, control id out.2 = Some c ∧
        eid c = "vote-" +:+ id ∧
        innerHTML c = "&#10145;" ∧
        (id, 1) ∈ click_calls c ∧
        ("up" ≠ EmptyString → c ≠ e)).
Proof.
  intros e st r. apply (unanchored_pattern_discovers r st e "up" "7").
  - apply list_elem_of_further, list_elem_of_here.
  - reflexivity.
  - reflexivity.
  - reflexivity.
Defined.

(** ** Hydrating again *)

(** Hydration with a reply whose ids all name controls, in closed form. *)
Lemma populate_votes_applied (j : json) (ups : list string) (st : state) :
  targets_resolve st →
  site_ids j = Some ups →
  Forall (λ id, is_Some (find_element ("vote-" +:+ id) (document st))) ups →
  populate_votes (Parsed j) st
  = (Normal Undefined,
     with_document
       (update_controls mark_upvoted ups
          (update_controls initialise (discovered (document st)) (document st)))
       (awaiting_votes st)).
Proof.
  intros Hres Hups Hknown.
  rewrite (populate_votes_parsed j ups st Hres Hups).
  rewrite (for_of_update_controls mark_upvoted eid_mark_upvoted); [done | |].
  - intros x st0 i Hi. by rewrite mark_upvoted_step, Hi.
  - eapply Forall_impl; [exact Hknown |]. intros id Hid. cbn.
    by rewrite (update_controls_find initialise eid_initialise).
Qed.

Lemma control_has_and (site_id : string) (Q1 Q2 : element → Prop)
    (doc : list element) :
  control_has site_id Q1 doc → control_has site_id Q2 doc →
  control_has site_id (λ e, Q1 e ∧ Q2 e) doc.
Proof.
  intros (i & e & Hi & He & H1) (i' & e' & Hi' & He' & H2). simplify_eq.
  by exists i, e.
Qed.

(** X14.  Hydrating a second time with the same reply shows every site as
    the first time (same class, same content), but registers its listeners
    once more on top of those already there: the controls end up with
    strictly more listeners. *)
Theorem rehydration_stacks_listeners (j : json) (ups : list string)
    (st : state) (site_id : string) :
  targets_resolve st →
  site_ids j = Some ups →
  Forall (λ id, is_Some (find_element ("vote-" +:+ id) (document st))) ups →
  site_id ∈ discovered (document st) →
  let st1 := (populate_votes (Parsed j) st).2 in
  let st2 := (populate_votes (Parsed j) st1).2 in
  ∃ e1 e2 extra,
    control site_id st1 = Some e1 ∧
    control site_id st2 = Some e2 ∧
    className e2 = className e1 ∧
    innerHTML e2 = innerHTML e1 ∧
    listeners e2 = listeners e1 ++ extra ∧
    extra ≠ [].
Proof.
  intros Hres Hups Hknown Hin st1 st2.
  assert (Hsame : touching vote_id st st1)
    by apply touching_populate_votes, vote_id_prefix.
  assert (Hres1 : targets_resolve st1).
  { unfold targets_resolve. rewrite (touching_discovered _ _ _ Hsame).
    eapply Forall_impl; [exact Hres |]. intros id Hid. cbn in *.
    by rewrite (touching_find _ _ _ _ Hsame). }
  assert (Hknown1 : Forall (λ id, is_Some (find_element ("vote-" +:+ id)
                                             (document st1))) ups).
  { eapply Forall_impl; [exact Hknown |]. intros id Hid. cbn in *.
    by rewrite (touching_find _ _ _ _ Hsame). }
  assert (Hin1 : site_id ∈ discovered (document st1))
    by by rewrite (touching_discovered _ _ _ Hsame).
  pose proof (hydrated_controls ups st site_id Hres Hin) as Hc1.
  pose proof (hydrated_controls ups st1 site_id Hres1 Hin1) as Hc2.
  assert (Hdoc1 : document st1
                  = update_controls mark_upvoted ups
                      (update_controls initialise (discovered (document st))
                         (document st))).
  { subst st1. by rewrite (populate_votes_applied j ups st). }
  assert (Hdoc2 : document st2
                  = update_controls mark_upvoted ups
                      (update_controls initialise (discovered (document st1))
                         (document st1))).
  { subst st2. by rewrite (populate_votes_applied j ups st1). }
  rewrite <- Hdoc1 in Hc1.
  destruct Hc1 as (i & e1 & Hi & He1 & Hclass1 & Hhtml1 & _).
  assert (Hgrow :
    control_has site_id
      (λ e, ∃ extra, listeners e = listeners e1 ++ extra ∧ extra ≠ [])
      (document st2)).
  { rewrite Hdoc2.
    apply (update_controls_stable mark_upvoted eid_mark_upvoted).
    { intros _ e (extra & Hl & Hne).
      exists (extra ++ [Invoke (vote_closure site_id 0)]).
      cbn. rewrite Hl, <- app_assoc. split; [done |]. by destruct extra. }
    apply (update_controls_reach initialise eid_initialise _ _ (λ e, e = e1));
      try done.
    - intros e ->. by exists [Invoke (vote_closure site_id 1)].
    - intros e (extra & Hl & Hne).
      exists (extra ++ [Invoke (vote_closure site_id 1)]).
      cbn. rewrite Hl, <- app_assoc. split; [done |]. by destruct extra.
    - by exists i, e1. }
  rewrite <- Hdoc2 in Hc2.
  destruct (control_has_control site_id _ st2
              (control_has_and _ _ _ _ Hc2 Hgrow))
    as (e2 & He2 & (Hclass2 & Hhtml2 & _) & extra & Hl & Hne).
  exists e1, e2, extra. split; [apply control_lookup; by exists i |].
  repeat split; try done; congruence.
Qed.

Lemma rehydration_stacks_listeners_witness :
  let st := {| document := [Element "div" "vote-a1" "" "" [];
                            Element "div" "vote-b2" "" "" []];
               localStorage := ∅; trace := [] |} in
  let r := Parsed (Json (Some 200) None None (Some ["b2"])) in
  let st1 := (populate_votes r st).2 in
  let st2 := (populate_votes r st1).2 in
  ∃ e1 e2 extra,
    control "b2" st1 = Some e1 ∧
    control "b2" st2 = Some e2 ∧
    className e2 = className e1 ∧
    innerHTML e2 = innerHTML e1 ∧
    listeners e2 = listeners e1 ++ extra ∧
    extra ≠ [].
Proof.
  intros st.
  apply (rehydration_stacks_listeners
           (Json (Some 200) None None (Some ["b2"])) ["b2"] st "b2").
  - unfold targets_resolve. cbn. repeat constructor; by eexists.
  - reflexivity.
  - repeat constructor. by eexists.
  - apply list_elem_of_further, list_elem_of_here.
Defined.

(** ** Notices *)

Lemma notices_no_alert (evs : list event) :
  Forall (λ e, match e with Alert _ => False | _ => True end) evs →
  notices evs = [].
Proof.
  induction 1 as [| e evs He _ IH]; [done |].
  rewrite notices_cons, IH. by destruct e.
Qed.

(** X15.  Hydration never shows a notice: whatever the page and the reply,
    and however it ends, no [alert] happens during [populate_votes]; its
    failures only reach the console. *)
Theorem hydration_shows_no_notice (r : reply) (st : state) :
  notices (trace (populate_votes r st).2) = notices (trace st).
Proof.
  destruct (keeps_populate_votes
              (λ e, match e with Alert _ => False | _ => True end) r)
    with (st := st) as [_ (evs & -> & Hevs)]; [done | done |].
  by rewrite notices_app, (notices_no_alert evs), app_nil_r.
Qed.

(** X16.  A refused issuance writes nothing: when [get_id(true)] is
    answered by anything but an object with code 200, the identity that was
    in store is still there and one request to [/id/] was sent.  When the
    request is rejected, the body does not parse or the body is an object
    with another code, the caller gets [null] after exactly one notice; when
    the body is [null], the call throws and no notice is shown. *)
Theorem failed_reissue_keeps_identity (r : reply) (st : state) (old : string) :
  localStorage st !! voter_key = Some old →
  ¬ confirmed r →
  let out := get_id true r st in
  out.1 = match r with
          | NullBody => Throw type_error
          | _ => Normal Null
          end ∧
  localStorage out.2 = localStorage st ∧
  localStorage out.2 !! voter_key = Some old ∧
  notices (trace out.2) = notices (trace st) ++ issuance_notices r ∧
  length (issuance_notices r) = match r with
                                | NullBody => 0%nat
                                | _ => 1%nat
                                end ∧
  requests (trace out.2) = requests (trace st) ++ [("/id/", [])].
Proof.
  intros Hold Hr out. subst out.
  assert (Hcases : failed r ∨ r = NullBody).
  { destruct r as [e | e | j |]; cbn in *; auto. }
  destruct Hcases as [Hfail | ->].
  - rewrite (get_id_failed true r st) by auto. cbn [fst snd].
    destruct (failed_issuance_notices r Hfail) as [notice Hn]. rewrite Hn.
    autorewrite with state.
    repeat split; try done; try (by events); by destruct r.
  - rewrite (get_id_null true st) by auto. cbn [fst snd].
    autorewrite with state. repeat split; try done; by events.
Qed.

Lemma failed_reissue_keeps_identity_witness :
  let st := {| document := []; localStorage := {[ voter_key := "v-old" ]};
               trace := [] |} in
  let out := get_id true (Unparsable "SyntaxError") st in
  out.1 = Normal Null ∧
  localStorage out.2 = localStorage st ∧
  localStorage out.2 !! voter_key = Some "v-old" ∧
  notices (trace out.2)
  = notices (trace st) ++ ["Error getting poster id: SyntaxError"] ∧
  length ["Error getting poster id: SyntaxError"] = 1%nat ∧
  requests (trace out.2) = requests (trace st) ++ [("/id/", [])].
Proof.
  intros st.
  apply (failed_reissue_keeps_identity (Unparsable "SyntaxError") st "v-old").
  - reflexivity.
  - intros [].
Defined.

(** X17.  A confirmed cast with vote 0 or 1 on a site that has its control
    returns normally and shows nothing: the only trace of it for the user
    is the class of the control. *)
Theorem confirmed_cast_is_silent (site_id : string) (vote : Z) (rid : reply)
    (j : json) (st : state) (e : element) (v : string) :
  identity_for rid st = Some v →
  control site_id st = Some e →
  code j = Some 200 →
  vote = 0 ∨ vote = 1 →
  let out := tryvote site_id vote rid (Parsed j) st in
  out.1 = Normal Undefined ∧
  notices (trace out.2) = notices (trace st) ∧
  className <$> control site_id out.2
  = Some (if vote =? 1 then "upvoted" else "unvoted").
Proof.
  intros Hid He Hj Hvote out.
  destruct (confirmed_cast site_id vote rid j st e v Hid He Hj Hvote)
    as [He' _]. fold out in He'. rewrite He'.
  destruct (get_id_identity rid (after [call_log site_id vote] st) v Hid)
    as (st1 & pre & Hget & Hdoc & Htr & _ & Hnot & _).
  pose proof (identity_for_nonempty _ _ _ Hid) as Hne.
  pose proof He as (i & Hi & _)%control_lookup.
  autorewrite with state in Hdoc, Htr. rewrite <- Hdoc in Hi.
  split; [| split; [| done]]; subst out; destruct Hvote as [-> | ->].
  - by rewrite (tryvote_unvoted site_id rid j st st1 v i).
  - by rewrite (tryvote_upvoted site_id rid j st st1 v i).
  - rewrite (tryvote_unvoted site_id rid j st st1 v i) by done.
    cbn. rewrite Htr. events. rewrite Hnot. by events.
  - rewrite (tryvote_upvoted site_id rid j st st1 v i) by done.
    cbn. rewrite Htr. events. rewrite Hnot. by events.
Qed.

Lemma confirmed_cast_is_silent_witness :
  let st := {| document := [Element "div" "vote-a1" "unvoted" "" []];
               localStorage := ∅; trace := [] |} in
  let rid := Parsed (Json (Some 200) None (Some "v-123") None) in
  let out := tryvote "a1" 1 rid (Parsed (Json (Some 200) None None None)) st in
  out.1 = Normal Undefined ∧
  notices (trace out.2) = notices (trace st) ∧
  className <$> control "a1" out.2 = Some "upvoted".
Proof.
  intros st rid.
  apply (confirmed_cast_is_silent "a1" 1 rid (Json (Some 200) None None None)
           st (Element "div" "vote-a1" "unvoted" "" []) "v-123").
  - reflexivity.
  - reflexivity.
  - reflexivity.
  - by right.
Defined.
